(** * mini-redis-with-go: the store and its command dispatcher

    A shallow embedding of the Go program's [Store] (the version that has
    [Expire], [TTL] and the janitor's [cleanup]) and of [Execute], followed
    by the properties of the specification that concern them.

    Conventions of the embedding.
    - A Go [string] is a [String.string] (a sequence of bytes).
    - [map[string]StoreData] is a [gmap string StoreData]; the mutex of the
      [Store] struct guards that map and carries no data, so a store is its
      map.  Every method is a function from the store before the call to a
      result and the store after it: calls are executed one after the
      other, each running to completion.
    - A [time.Time] is an integer number of nanoseconds on one time line
      whose origin is Go's zero Time; the wall clock and the monotonic
      clock are taken to advance together.  A [time.Duration] is a signed
      64-bit count of nanoseconds.
    - Each method reads the clock at most once ([time.Now] in [Expire] and
      [cleanup], [time.Until] in [TTL]); that reading is the argument
      [now]. *)

From Stdlib Require Import ZArith Lia String Ascii List.
From Stdlib Require Import DecimalString DecimalZ DecimalPos.
From stdpp Require Import gmap strings list fin_maps.

Local Open Scope string_scope.
Local Open Scope Z_scope.

(** ** Time *)

Module time.

Definition Time := Z.
Definition Duration := Z.

Definition Nanosecond : Duration := 1.
Definition Millisecond : Duration := 1000000.
Definition Second : Duration := 1000000000.

Definition minDuration : Duration := - 2 ^ 63.
Definition maxDuration : Duration := 2 ^ 63 - 1.

(** Two's complement wrap-around of 64-bit signed arithmetic. *)
Definition wrap64 (z : Z) : Z := (z + 2 ^ 63) mod 2 ^ 64 - 2 ^ 63.

(** [a * b] on [Duration] (an [int64]). *)
Definition mul (a b : Duration) : Duration := wrap64 (a * b).

(** [Duration(n)] for [n] of type [int] (64 bits wide). *)
Definition of_int (n : Z) : Duration := wrap64 n.

(** The zero Time: January 1, year 1, 00:00:00 UTC. *)
Definition zero : Time := 0.

(** [t.IsZero()] *)
Definition IsZero (t : Time) : bool := t =? zero.

(** [t.Add(d)] *)
Definition Add (t : Time) (d : Duration) : Time := t + d.

(** [t.After(u)]: strictly later. *)
Definition After (t u : Time) : bool := u <? t.

(** [t.Sub(u)]: the difference, saturated to the range of [Duration]. *)
Definition Sub (t u : Time) : Duration :=
  Z.max minDuration (Z.min maxDuration (t - u)).

(** [time.Until(t)] is [t.Sub(time.Now())]. *)
Definition Until (now t : Time) : Duration := Sub t now.

(** [int(d.Seconds())].  [Seconds] returns the float64
    [float64(d / Second) + float64(d % Second) / 1e9] and the conversion
    to [int] truncates toward zero.  For a duration of fewer than 2^24
    seconds the float sum lies strictly between the whole second below
    and the one above, so the conversion yields the integer quotient,
    which is what this function computes. *)
Definition Seconds_int (d : Duration) : Z := Z.quot d Second.

(** The range on which [Seconds_int] is exactly the float computation. *)
Definition exact_seconds (d : Duration) : Prop :=
  Z.abs d < 2 ^ 24 * Second.

End time.

(** ** strconv *)

Module strconv.

(** [strconv.Itoa]: decimal digits, a leading minus sign for a negative
    number, no leading zero. *)
Definition Itoa (n : Z) : string := NilZero.string_of_int (Z.to_int n).

End strconv.

(** ** The store *)

Record StoreData := mkStoreData {
  value : string;
  expiresAt : time.Time
}.

Abbreviation Store := (gmap string StoreData).

(** The default time to live that [Set] passes to [Expire], in seconds. *)
Definition defaultTTL : Z := 5.

(** [func (s *Store) Expire(key string, seconds int) string] *)
Definition Store_Expire (key : string) (seconds : Z) (now : time.Time)
    (s : Store) : string * Store :=
  match s !! key with
  | None => ("ERR data not found", s)
  | Some v =>
      let v' := {| value := value v;
                   expiresAt :=
                     time.Add now (time.mul time.Second (time.of_int seconds)) |} in
      ("OK", <[key := v']> s)
  end.

(** [func (s *Store) Set(key string, value string) string].  The entry is
    first written without an expiry and [Expire] then stamps it. *)
Definition Store_Set (key val : string) (now : time.Time) (s : Store)
    : string * Store :=
  let s1 := <[key := {| value := val; expiresAt := time.zero |}]> s in
  let '(_, s2) := Store_Expire key defaultTTL now s1 in
  ("OK", s2).

(** [func (s *Store) TTL(key string) string] *)
Definition Store_TTL (key : string) (now : time.Time) (s : Store)
    : string * Store :=
  match s !! key with
  | None => ("-1", s)
  | Some v =>
      if time.IsZero (expiresAt v) then ("Data never expires", s)
      else
        let diff := time.Until now (expiresAt v) in
        if diff <=? 0 then ("-1", delete key s)
        else (strconv.Itoa (time.Seconds_int diff), s)
  end.

(** [func (s *Store) Get(key string) string].  The entry is read first;
    [TTL] then decides whether it has expired (and deletes it if so). *)
Definition Store_Get (key : string) (now : time.Time) (s : Store)
    : string * Store :=
  match s !! key with
  | None => ("ERR data doesn't exist", s)
  | Some storeData =>
      let '(expired, s') := Store_TTL key now s in
      if String.eqb expired "-1" then ("ERR data expired", s')
      else (value storeData, s')
  end.

(** [func (s *Store) Del(key string)] *)
Definition Store_Del (key : string) (s : Store) : Store := delete key s.

(** [func (s *Store) Exists(key string) bool] *)
Definition Store_Exists (key : string) (s : Store) : bool :=
  match s !! key with
  | Some _ => true
  | None => false
  end.

(** [func (s *Store) cleanup()]: the janitor's pass.  The loop ranges over
    the entries of the map and deletes, from that same map, each entry it
    visits whose expiry is set and lies before [now]. *)
Definition cleanup_step (now : time.Time) (k : string) (v : StoreData)
    (acc : Store) : Store :=
  if negb (time.IsZero (expiresAt v)) && time.After now (expiresAt v)
  then delete k acc
  else acc.

Definition Store_cleanup (now : time.Time) (s : Store) : Store :=
  map_fold (cleanup_step now) s s.

(** [args[i]]; [Execute] indexes only below a length it has checked. *)
Definition arg (args : list string) (i : nat) : string := nth i args "".

(** [func (s *Store) Execute(command string, args []string) string] *)
Definition Store_Execute (command : string) (args : list string)
    (now : time.Time) (s : Store) : string * Store :=
  if String.eqb command "PING" then ("PONG", s)
  else if String.eqb command "SET" then
    if negb (length args =? 2)%nat
    then ("ERR wrong number of arguments for 'set' command", s)
    else let '(_, s') := Store_Set (arg args 0) (arg args 1) now s in
         ("OK", s')
  else if String.eqb command "GET" then
    if negb (length args =? 1)%nat
    then ("ERR wrong number of arguments for 'get' command", s)
    else let '(variable, s') := Store_Get (arg args 0) now s in
         if String.eqb variable ""
         then ("ERR property doesn't exist in store", s')
         else (variable, s')
  else if String.eqb command "DEL" then
    if negb (length args =? 1)%nat
    then ("ERR wrong number of arguments for 'del' command", s)
    else ("OK", Store_Del (arg args 0) s)
  else if String.eqb command "EXISTS" then
    if negb (length args =? 1)%nat
    then ("ERR wrong number of arguments for 'exists' command", s)
    else if Store_Exists (arg args 0) s then ("Yes", s) else ("No", s)
  else ("ERR unknown command", s).

(** The verbs of the command table. *)
Definition known_verbs : list string := ["PING"; "SET"; "GET"; "DEL"; "EXISTS"].

(** The response to a known verb with the wrong number of arguments. *)
Definition ArgumentCountError (name : string) : string :=
  "ERR wrong number of arguments for '" ++ name ++ "' command".

(** The number of arguments the specification's command table gives for
    each verb. *)
Definition table_arity (verb : string) : nat :=
  if String.eqb verb "PING" then 0
  else if String.eqb verb "SET" then 2
  else 1.


(** [func (s *Store) StartJanitor(interval time.Duration)]: the goroutine
    runs one [cleanup] per tick of its ticker.  [ticks] lists the clock
    readings of the successive passes; the passes run with no client call
    in between. *)
Definition janitor (ticks : list time.Time) (s : Store) : Store :=
  fold_left (fun acc now => Store_cleanup now acc) ticks s.

(** ** The earlier store (TTL stamped inside [Set], expiry checked in [Get])

    The repository also holds the version of the program from before
    [Expire], [TTL] and the janitor existed.  Its [StoreData] has the same
    two fields, with the expiry named [ttl]; [expiresAt] stands for it
    here. *)

Module Inline.

(** [func (s *Store) Set(key string, value string)] *)
Definition Store_Set (key val : string) (now : time.Time) (s : Store) : Store :=
  <[key := {| value := val;
              expiresAt := time.Add now (time.mul time.Millisecond 5000) |}]> s.

(** [func (s *Store) Get(key string) string] *)
Definition Store_Get (key : string) (now : time.Time) (s : Store) : string * Store :=
  match s !! key with
  | None => ("ERR data doesn't exist", s)
  | Some storeData =>
      if time.After now (expiresAt storeData)
      then ("ERR data expired", delete key s)
      else (value storeData, s)
  end.

(** [func (s *Store) Execute(command string, args []string) string]; [Del]
    and [Exists] are those of the later version, word for word. *)
Definition Store_Execute (command : string) (args : list string)
    (now : time.Time) (s : Store) : string * Store :=
  if String.eqb command "PING" then ("PONG", s)
  else if String.eqb command "SET" then
    if negb (length args =? 2)%nat
    then ("ERR wrong number of arguments for 'set' command", s)
    else ("OK", Store_Set (arg args 0) (arg args 1) now s)
  else if String.eqb command "GET" then
    if negb (length args =? 1)%nat
    then ("ERR wrong number of arguments for 'get' command", s)
    else let '(variable, s') := Store_Get (arg args 0) now s in
         if String.eqb variable ""
         then ("ERR property doesn't exist in store", s')
         else (variable, s')
  else if String.eqb command "DEL" then
    if negb (length args =? 1)%nat
    then ("ERR wrong number of arguments for 'del' command", s)
    else ("OK", Store_Del (arg args 0) s)
  else if String.eqb command "EXISTS" then
    if negb (length args =? 1)%nat
    then ("ERR wrong number of arguments for 'exists' command", s)
    else if Store_Exists (arg args 0) s then ("Yes", s) else ("No", s)
  else ("ERR unknown command", s).

End Inline.

(** ** The connection handler

    [strings.TrimSpace], [strings.Fields] and [strings.ToUpper] are
    modelled on ASCII input (every byte below [0x80]), where Go's
    functions work byte by byte; what is proved about the handler assumes
    such input. *)

Module strings.

(** Go's table [asciiSpace]: tab, line feed, vertical tab, form feed,
    carriage return and space. *)
Definition asciiSpace (c : ascii) : bool :=
  let n := N_of_ascii c in
  ((9 <=? n) && (n <=? 13) || (n =? 32))%N.

Fixpoint isASCII (s : string) : bool :=
  match s with
  | EmptyString => true
  | String c r => (N_of_ascii c <? 128)%N && isASCII r
  end.

Fixpoint TrimLeft (s : string) : string :=
  match s with
  | EmptyString => EmptyString
  | String c r => if asciiSpace c then TrimLeft r else s
  end.

Fixpoint TrimRight (s : string) : string :=
  match s with
  | EmptyString => EmptyString
  | String c r =>
      match TrimRight r with
      | EmptyString => if asciiSpace c then EmptyString else String c EmptyString
      | r' => String c r'
      end
  end.

(** [strings.TrimSpace] *)
Definition TrimSpace (s : string) : string := TrimRight (TrimLeft s).

(** [strings.Fields]: the maximal runs of bytes that are not spaces, in
    order; [cur] is the field being read. *)
Fixpoint fields_from (cur s : string) : list string :=
  match s with
  | EmptyString =>
      match cur with EmptyString => [] | _ => [cur] end
  | String c r =>
      if asciiSpace c
      then match cur with
           | EmptyString => fields_from EmptyString r
           | _ => cur :: fields_from EmptyString r
           end
      else fields_from (cur ++ String c EmptyString) r
  end.

Definition Fields (s : string) : list string := fields_from EmptyString s.

Definition upper (c : ascii) : ascii :=
  let n := N_of_ascii c in
  if ((97 <=? n) && (n <=? 122))%N then ascii_of_N (n - 32) else c.

(** [strings.ToUpper] *)
Fixpoint ToUpper (s : string) : string :=
  match s with
  | EmptyString => EmptyString
  | String c r => String (upper c) (ToUpper r)
  end.

End strings.

Module bufio.

(** [reader.ReadString(delim)] on the bytes still to come from the
    connection: the bytes up to and including the first [delim] and what
    follows them, or [None] (the error) when the input ends before a
    [delim]. *)
Fixpoint ReadString (delim : ascii) (input : string) : option (string * string) :=
  match input with
  | EmptyString => None
  | String c r =>
      if Ascii.eqb c delim then Some (String c EmptyString, r)
      else match ReadString delim r with
           | Some (line, rest) => Some (String c line, rest)
           | None => None
           end
  end.

End bufio.

(** What one turn of the loop of [handleConnection] does with a line. *)
Inductive turn :=
| Skipped
| Replied (resp : string) (s' : Store)
| IndexOutOfRange.

(** The body of the loop of [handleConnection], from [strings.TrimSpace] to
    [store.Execute]; an empty [parts] would make [parts[0]] panic. *)
Definition handleLine (line : string) (now : time.Time) (s : Store) : turn :=
  let line := strings.TrimSpace line in
  if String.eqb line "" then Skipped
  else
    match strings.Fields line with
    | [] => IndexOutOfRange
    | verb :: args =>
        let cmd := strings.ToUpper verb in
        let '(resp, s') := Store_Execute cmd args now s in
        Replied resp s'
    end.

(** The line feed that ends a command and a response. *)
Definition newline : ascii := ascii_of_N 10.

(** The state of a connection when its handler returns: the response lines
    written ([fmt.Fprintln] ends each with a line feed), the store, and
    whether the handler panicked. *)
Record served := mkServed {
  responses : list string;
  store_after : Store;
  panicked : bool
}.

(** [func handleConnection(conn net.Conn, store *Store)] on the bytes
    [input] that the peer sends before it closes the connection.  Turn [i]
    of the loop reads the clock as [clock i].  A turn consumes at least one
    byte, so [fuel] bounded below by the length of the input is never
    exhausted. *)
Fixpoint serve (fuel : nat) (clock : nat -> time.Time) (i : nat)
    (input : string) (s : Store) : served :=
  match fuel with
  | O => mkServed [] s false
  | S fuel' =>
      match bufio.ReadString newline input with
      | None => mkServed [] s false
      | Some (line, rest) =>
          match handleLine line (clock i) s with
          | Skipped => serve fuel' clock (S i) rest s
          | Replied resp s' =>
              let r := serve fuel' clock (S i) rest s' in
              mkServed (resp :: responses r) (store_after r) (panicked r)
          | IndexOutOfRange => mkServed [] s true
          end
      end
  end.

Definition handleConnection (clock : nat -> time.Time) (input : string)
    (s : Store) : served :=
  serve (String.length input) clock 0 input s.

(** After an operation the entry of [k] is still [d], or [k] is gone. *)
Definition kept_or_removed (k : string) (d : StoreData) (s : Store) : Prop :=
  s !! k = Some d \/ s !! k = None.

(** Every entry of the store carries an expiry, and none later than
    [bound]. *)
Definition expiry_bounded (bound : time.Time) (s : Store) : Prop :=
  forall k d, s !! k = Some d ->
    expiresAt d <> time.zero /\ expiresAt d <= bound.

(** A field of a command line: not empty, and free of space bytes. *)
Fixpoint spaceless (t : string) : bool :=
  match t with
  | EmptyString => true
  | String c r => negb (strings.asciiSpace c) && spaceless r
  end.

Definition token (t : string) : Prop := t <> "" /\ spaceless t = true.

(** Every value of the store is a token. *)
Definition values_are_tokens (s : Store) : Prop :=
  forall k d, s !! k = Some d -> token (value d).

(** A line made of space bytes only (the empty line included). *)
Fixpoint blank (s : string) : bool :=
  match s with
  | EmptyString => true
  | String c r => strings.asciiSpace c && blank r
  end.

(** A command as a client sends it: the words separated by one space and
    followed by a line feed. *)
Fixpoint unwords (words : list string) : string :=
  match words with
  | [] => ""
  | [w] => w
  | w :: ws => w ++ " " ++ unwords ws
  end.

Definition command_line (words : list string) : string :=
  unwords words ++ String newline "".

Example Itoa_examples :
  strconv.Itoa 0 = "0" /\ strconv.Itoa 4 = "4" /\ strconv.Itoa (-1) = "-1"
  /\ strconv.Itoa 1203 = "1203".
Proof. repeat split; reflexivity. Qed.

Example store_smoke_test :
  let s1 := snd (Store_Set "foo" "bar" 1000 ∅) in
  s1 !! "foo" = Some {| value := "bar"; expiresAt := 5000001000 |}
  /\ fst (Store_Get "foo" 2000 s1) = "bar"
  /\ fst (Store_Get "foo" 5000001000 s1) = "ERR data expired".
Proof. vm_compute. repeat split; reflexivity. Qed.

(** ** Arithmetic of instants and durations *)

Section TimeFacts.

Import time.

Lemma Sub_nonpos_iff (t u : Time) : Sub t u <= 0 <-> t <= u.
Proof. unfold Sub, minDuration, maxDuration. lia. Qed.

Lemma Sub_pos_iff (t u : Time) : 0 < Sub t u <-> u < t.
Proof. unfold Sub, minDuration, maxDuration. lia. Qed.

Lemma Sub_exact (t u : Time) :
  minDuration <= t - u <= maxDuration -> Sub t u = t - u.
Proof. unfold Sub. lia. Qed.

Lemma wrap64_small (z : Z) : - 2 ^ 63 <= z < 2 ^ 63 -> wrap64 z = z.
Proof.
  intros Hz. unfold wrap64.
  rewrite Z.mod_small by lia. lia.
Qed.

Lemma wrap64_range (z : Z) : - 2 ^ 63 <= wrap64 z < 2 ^ 63.
Proof.
  unfold wrap64.
  pose proof (Z.mod_pos_bound (z + 2 ^ 63) (2 ^ 64) ltac:(lia)). lia.
Qed.

(** [time.Second * time.Duration(seconds)] is [seconds] seconds as long as
    the product fits the 64 bits of a [Duration]. *)
Lemma seconds_duration (seconds : Z) :
  minDuration <= seconds * Second <= maxDuration ->
  mul Second (of_int seconds) = seconds * Second.
Proof.
  unfold minDuration, maxDuration, mul, of_int, Second. intros H.
  rewrite (wrap64_small seconds) by lia.
  rewrite wrap64_small; lia.
Qed.

(** The product wraps once: wrapping the factor first changes nothing. *)
Lemma wrap64_mul_wrap (a b : Z) : wrap64 (a * wrap64 b) = wrap64 (a * b).
Proof.
  unfold wrap64. f_equal.
  pose proof (Z.div_mod (b + 2 ^ 63) (2 ^ 64) ltac:(lia)) as Hb.
  replace (a * ((b + 2 ^ 63) mod 2 ^ 64 - 2 ^ 63) + 2 ^ 63)
    with (a * b + 2 ^ 63 + (- a * ((b + 2 ^ 63) / 2 ^ 64)) * 2 ^ 64) by lia.
  apply Z_mod_plus_full.
Qed.

(** [time.Second * time.Duration(seconds)] for every [seconds]. *)
Lemma seconds_duration_wrapped (seconds : Z) :
  mul Second (of_int seconds) = wrap64 (seconds * 1000000000).
Proof.
  unfold mul, of_int, Second. rewrite wrap64_mul_wrap. f_equal. lia.
Qed.

Lemma default_duration : mul Second (of_int defaultTTL) = 5 * Second.
Proof. reflexivity. Qed.

Lemma Seconds_int_nonneg (d : Duration) : 0 <= d -> 0 <= Seconds_int d.
Proof.
  intros Hd. unfold Seconds_int, Second.
  rewrite Z.quot_div_nonneg by lia. apply Z.div_pos; lia.
Qed.


End TimeFacts.

(** ** Decimal rendering *)

Section ItoaFacts.

Import strconv.

Lemma to_int_proper (n : Z) :
  Z.to_int n <> Decimal.Pos Decimal.Nil /\ Z.to_int n <> Decimal.Neg Decimal.Nil.
Proof.
  destruct n as [|p|p]; simpl; split; try discriminate;
    intros [= H]; exact (Unsigned.to_uint_nonnil p H).
Qed.

Lemma Itoa_inj (a b : Z) : Itoa a = Itoa b -> a = b.
Proof.
  unfold Itoa. intros H.
  destruct (to_int_proper a) as [Ha1 Ha2], (to_int_proper b) as [Hb1 Hb2].
  pose proof (NilZero.isi _ Ha1 Ha2) as Ia.
  pose proof (NilZero.isi _ Hb1 Hb2) as Ib.
  rewrite H in Ia. rewrite Ia in Ib. injection Ib as Hab.
  rewrite <- (DecimalZ.of_to a), <- (DecimalZ.of_to b). now rewrite Hab.
Qed.

Lemma Itoa_nonneg_not_minus_one (n : Z) : 0 <= n -> Itoa n <> "-1".
Proof.
  intros Hn H. change "-1" with (Itoa (-1)) in H.
  apply Itoa_inj in H. lia.
Qed.

Lemma Itoa_nonneg_eqb (n : Z) : 0 <= n -> String.eqb (Itoa n) "-1" = false.
Proof.
  intros Hn. apply String.eqb_neq. now apply Itoa_nonneg_not_minus_one.
Qed.

End ItoaFacts.

(** ** Equations of the store operations *)

Section StoreEquations.

Implicit Types (s : Store) (key : string) (now : time.Time) (d : StoreData).

Lemma Expire_absent key seconds now s :
  s !! key = None ->
  Store_Expire key seconds now s = ("ERR data not found", s).
Proof. intros H. unfold Store_Expire. now rewrite H. Qed.

Lemma Expire_present key seconds now s d :
  s !! key = Some d ->
  Store_Expire key seconds now s =
    ("OK", <[key := {| value := value d;
                       expiresAt := now + time.mul time.Second (time.of_int seconds) |}]> s).
Proof. intros H. unfold Store_Expire. now rewrite H. Qed.

Lemma Set_eq key val now s :
  Store_Set key val now s =
    ("OK", <[key := {| value := val; expiresAt := now + 5 * time.Second |}]> s).
Proof.
  unfold Store_Set.
  rewrite (Expire_present key defaultTTL now _ _ (lookup_insert_eq s key _)).
  rewrite default_duration. simpl. now rewrite insert_insert_eq.
Qed.

Lemma TTL_absent key now s :
  s !! key = None -> Store_TTL key now s = ("-1", s).
Proof. intros H. unfold Store_TTL. now rewrite H. Qed.

Lemma TTL_never key now s d :
  s !! key = Some d -> expiresAt d = time.zero ->
  Store_TTL key now s = ("Data never expires", s).
Proof.
  intros H Hz. unfold Store_TTL, time.IsZero. rewrite H, Hz.
  now rewrite Z.eqb_refl.
Qed.

Lemma TTL_expired key now s d :
  s !! key = Some d -> expiresAt d <> time.zero -> expiresAt d <= now ->
  Store_TTL key now s = ("-1", delete key s).
Proof.
  intros H Hz Hle. unfold Store_TTL, time.IsZero, time.Until. rewrite H.
  destruct (Z.eqb_spec (expiresAt d) time.zero) as [|_]; [contradiction|].
  apply Sub_nonpos_iff in Hle.
  destruct (Z.leb_spec (time.Sub (expiresAt d) now) 0); [reflexivity | lia].
Qed.

Lemma TTL_live key now s d :
  s !! key = Some d -> expiresAt d <> time.zero -> now < expiresAt d ->
  Store_TTL key now s =
    (strconv.Itoa (time.Seconds_int (time.Sub (expiresAt d) now)), s).
Proof.
  intros H Hz Hlt. unfold Store_TTL, time.IsZero, time.Until. rewrite H.
  destruct (Z.eqb_spec (expiresAt d) time.zero) as [|_]; [contradiction|].
  apply Sub_pos_iff in Hlt.
  destruct (Z.leb_spec (time.Sub (expiresAt d) now) 0); [lia | reflexivity].
Qed.

Lemma Get_absent key now s :
  s !! key = None -> Store_Get key now s = ("ERR data doesn't exist", s).
Proof. intros H. unfold Store_Get. now rewrite H. Qed.

Lemma Get_never key now s d :
  s !! key = Some d -> expiresAt d = time.zero ->
  Store_Get key now s = (value d, s).
Proof.
  intros H Hz. unfold Store_Get. rewrite (TTL_never _ _ _ _ H Hz).
  now rewrite H.
Qed.

Lemma Get_expired key now s d :
  s !! key = Some d -> expiresAt d <> time.zero -> expiresAt d <= now ->
  Store_Get key now s = ("ERR data expired", delete key s).
Proof.
  intros H Hz Hle. unfold Store_Get. rewrite (TTL_expired _ _ _ _ H Hz Hle).
  now rewrite H.
Qed.

Lemma Get_live key now s d :
  s !! key = Some d -> expiresAt d <> time.zero -> now < expiresAt d ->
  Store_Get key now s = (value d, s).
Proof.
  intros H Hz Hlt. unfold Store_Get. rewrite (TTL_live _ _ _ _ H Hz Hlt).
  rewrite H, Itoa_nonneg_eqb; [reflexivity|].
  apply Seconds_int_nonneg. apply Sub_pos_iff in Hlt. lia.
Qed.

(** An entry that has not expired is returned, whether or not it
    carries an expiry. *)
Lemma Get_unexpired key now s d :
  s !! key = Some d -> now < expiresAt d ->
  Store_Get key now s = (value d, s).
Proof.
  intros H Hlt. destruct (Z.eq_dec (expiresAt d) time.zero) as [Hz|Hz].
  - now apply Get_never.
  - now apply Get_live.
Qed.

(** A read that follows a [Set] by less than the default TTL. *)
Lemma Get_after_Set key val (t0 t1 : time.Time) s :
  t1 - t0 < defaultTTL * time.Second ->
  Store_Get key t1 (snd (Store_Set key val t0 s)) =
    (val, snd (Store_Set key val t0 s)).
Proof.
  intros Hlt. rewrite Set_eq. simpl.
  rewrite (Get_unexpired key t1 _ _ (lookup_insert_eq s key _)); [reflexivity|].
  simpl. unfold defaultTTL in Hlt. lia.
Qed.

(** [TTL] and [Get] leave the store as it was or delete their key. *)
Lemma TTL_store key now s :
  snd (Store_TTL key now s) = s \/ snd (Store_TTL key now s) = delete key s.
Proof.
  unfold Store_TTL. destruct (s !! key) as [d|]; [|now left].
  destruct (time.IsZero (expiresAt d)); [now left|].
  destruct (time.Until now (expiresAt d) <=? 0); simpl; [now right | now left].
Qed.

Lemma Get_store (s : Store) (k : string) (now : time.Time) :
  snd (Store_Get k now s) = s \/ snd (Store_Get k now s) = delete k s.
Proof.
  unfold Store_Get, Store_TTL. destruct (s !! k) as [d|]; [|now left].
  destruct (time.IsZero (expiresAt d)); [now left|].
  destruct (time.Until now (expiresAt d) <=? 0); simpl; [now right|].
  destruct (String.eqb _ "-1"); now left.
Qed.

End StoreEquations.

(** ** The janitor's pass *)

Section Cleanup.

Implicit Types (s acc : Store) (key : string) (now : time.Time).

(** The test that [cleanup] applies to each entry it visits. *)
Lemma cleanup_test now (d : StoreData) :
  negb (time.IsZero (expiresAt d)) && time.After now (expiresAt d) = true
  <-> expiresAt d <> time.zero /\ expiresAt d < now.
Proof.
  unfold time.IsZero, time.After.
  destruct (Z.eqb_spec (expiresAt d) time.zero),
           (Z.ltb_spec (expiresAt d) now); simpl; intuition (lia || congruence).
Qed.

(** Ranging over [m] and deleting from [acc]: a key of [m] whose entry
    passes the test is gone, every other key reads as in [acc]. *)
Lemma cleanup_fold_lookup now acc (m : Store) key :
  map_fold (cleanup_step now) acc m !! key =
    match m !! key with
    | Some d =>
        if negb (time.IsZero (expiresAt d)) && time.After now (expiresAt d)
        then None else acc !! key
    | None => acc !! key
    end.
Proof.
  revert key.
  apply (map_fold_weak_ind
           (fun r m => forall key, r !! key =
              match m !! key with
              | Some d =>
                  if negb (time.IsZero (expiresAt d))
                     && time.After now (expiresAt d)
                  then None else acc !! key
              | None => acc !! key
              end)).
  - intros key. now rewrite lookup_empty.
  - intros i x m' r Hfresh IH key. unfold cleanup_step.
    destruct (decide (i = key)) as [->|Hne].
    + rewrite lookup_insert_eq.
      destruct (negb (time.IsZero (expiresAt x)) && time.After now (expiresAt x)).
      * apply lookup_delete_eq.
      * rewrite IH, Hfresh. reflexivity.
    + rewrite (lookup_insert_ne m' i key x Hne).
      destruct (negb (time.IsZero (expiresAt x)) && time.After now (expiresAt x)).
      * rewrite (lookup_delete_ne r i key Hne). apply IH.
      * apply IH.
Qed.

Lemma cleanup_lookup now s key :
  Store_cleanup now s !! key =
    match s !! key with
    | Some d =>
        if negb (time.IsZero (expiresAt d)) && time.After now (expiresAt d)
        then None else Some d
    | None => None
    end.
Proof.
  unfold Store_cleanup. rewrite cleanup_fold_lookup.
  destruct (s !! key) as [d|] eqn:H; reflexivity.
Qed.

End Cleanup.

(** ** Properties of the specification *)

(** C5. Every call [Set(k, v)] answers "OK" and leaves the store holding,
    for [k], the value [v] with [expiresAt] equal to the clock reading of
    the call plus 5 seconds (5000000000 ns); the other keys are as before.
    Afterwards only [Expire] (or another [Set]) changes that deadline: in
    any later store where [k] holds an entry, [Get], [TTL], [Del],
    [cleanup], and [Expire] of another key each leave that entry as it is
    or remove the key ([Exists] has no effect on the store at all), while
    [Expire] of [k], for seconds within the range of a [Duration], moves
    the deadline to its own clock reading plus those seconds and keeps the
    value. *)
Theorem Set_establishes_default_expiry (s : Store) (k v : string) (now : time.Time) :
  fst (Store_Set k v now s) = "OK"
  /\ snd (Store_Set k v now s) !! k =
       Some {| value := v; expiresAt := now + 5000000000 |}
  /\ (forall k', k' <> k -> snd (Store_Set k v now s) !! k' = s !! k')
  /\ (forall (s1 : Store) (d : StoreData) (k' : string) (t : time.Time),
        s1 !! k = Some d ->
        kept_or_removed k d (snd (Store_Get k' t s1))
        /\ kept_or_removed k d (snd (Store_TTL k' t s1))
        /\ kept_or_removed k d (Store_Del k' s1)
        /\ kept_or_removed k d (Store_cleanup t s1)
        /\ (forall seconds, k' <> k ->
              kept_or_removed k d (snd (Store_Expire k' seconds t s1))))
  /\ (forall (s1 : Store) (d : StoreData) (seconds : Z) (t : time.Time),
        s1 !! k = Some d ->
        - 9223372036 <= seconds <= 9223372036 ->
        snd (Store_Expire k seconds t s1) !! k =
          Some {| value := value d; expiresAt := t + seconds * 1000000000 |}).
Proof.
  rewrite Set_eq. simpl. split; [reflexivity|]. split; [apply lookup_insert_eq|].
  split; [intros k' Hne; apply lookup_insert_ne; congruence|]. split.
  - intros s1 d k' t Hd.
    assert (Hdel : kept_or_removed k d (delete k' s1)).
    { unfold kept_or_removed. destruct (decide (k' = k)) as [->|Hne].
      - right. apply lookup_delete_eq.
      - left. now rewrite lookup_delete_ne. }
    assert (Hsame : kept_or_removed k d s1) by now left.
    repeat split.
    + destruct (Get_store s1 k' t) as [->| ->]; assumption.
    + destruct (TTL_store k' t s1) as [->| ->]; assumption.
    + exact Hdel.
    + unfold kept_or_removed. rewrite cleanup_lookup, Hd.
      destruct (negb (time.IsZero (expiresAt d)) && time.After t (expiresAt d));
        [now right | now left].
    + intros seconds Hne. unfold kept_or_removed, Store_Expire.
      destruct (s1 !! k') as [d'|]; simpl; [|now left].
      left. now rewrite lookup_insert_ne.
  - intros s1 d seconds t Hd Hfit.
    rewrite (Expire_present _ _ _ _ _ Hd). simpl. rewrite lookup_insert_eq.
    rewrite seconds_duration
      by (unfold time.minDuration, time.maxDuration, time.Second; lia).
    reflexivity.
Qed.

Lemma Set_establishes_default_expiry_witness :
  snd (Store_Set "foo" "bar" 1000 ∅) !! "foo" =
    Some {| value := "bar"; expiresAt := 5000001000 |}
  /\ snd (Store_Expire "foo" 60 7000 (snd (Store_Set "foo" "bar" 1000 ∅))) !! "foo" =
       Some {| value := "bar"; expiresAt := 60000007000 |}.
Proof.
  split.
  - exact (proj1 (proj2 (Set_establishes_default_expiry ∅ "foo" "bar" 1000))).
  - apply (proj2 (proj2 (proj2 (proj2
             (Set_establishes_default_expiry ∅ "foo" "bar" 1000))))
             _ {| value := "bar"; expiresAt := 5000001000 |} 60 7000).
    + reflexivity.
    + split; vm_compute; discriminate.
Defined.

(** C2. [Set(k, v)] followed by [Get(k)] returns [v] when less than the
    default TTL has elapsed between the two calls; the read leaves the
    store as [Set] left it. *)
Theorem Set_then_Get (s : Store) (k v : string) (t0 t1 : time.Time) :
  t1 - t0 < defaultTTL * time.Second ->
  Store_Get k t1 (snd (Store_Set k v t0 s)) = (v, snd (Store_Set k v t0 s)).
Proof. apply Get_after_Set. Qed.

Lemma Set_then_Get_witness :
  4999999999 - 0 < defaultTTL * time.Second
  /\ Store_Get "foo" 4999999999 (snd (Store_Set "foo" "bar" 0 ∅))
     = ("bar", snd (Store_Set "foo" "bar" 0 ∅)).
Proof.
  assert (H : 4999999999 - 0 < defaultTTL * time.Second) by (vm_compute; reflexivity).
  split; [exact H | exact (Set_then_Get ∅ "foo" "bar" 0 4999999999 H)].
Defined.

(** C1. A key written by [Set] and not modified since: at any clock
    reading at or past its [expiresAt] (the reading of the [Set] plus the
    default TTL) [Get] answers "ERR data expired" and removes the entry;
    the next [Get], whenever it comes, answers "ERR data doesn't exist".
    Clock readings are not before the zero Time. *)
Theorem Get_expired_then_absent (s s1 : Store) (k v : string) (t0 t1 t2 : time.Time) :
  time.zero <= t0 ->
  s1 !! k = snd (Store_Set k v t0 s) !! k ->
  t0 + defaultTTL * time.Second <= t1 ->
  Store_Get k t1 s1 = ("ERR data expired", delete k s1)
  /\ Store_Get k t2 (delete k s1) = ("ERR data doesn't exist", delete k s1).
Proof.
  intros Hclock Hk Hpast.
  rewrite Set_eq in Hk; simpl in Hk. rewrite lookup_insert_eq in Hk.
  unfold time.zero, defaultTTL, time.Second in *. split.
  - rewrite (Get_expired k t1 s1 _ Hk); [reflexivity| |]; simpl;
      unfold time.zero, time.Second; lia.
  - apply Get_absent, lookup_delete_eq.
Qed.

Lemma Get_expired_then_absent_witness :
  let s1 := snd (Store_Set "foo" "bar" 1000 ∅) in
  Store_Get "foo" 5000001000 s1 = ("ERR data expired", delete "foo" s1)
  /\ Store_Get "foo" 5000001000 (delete "foo" s1)
     = ("ERR data doesn't exist", delete "foo" s1).
Proof.
  apply (Get_expired_then_absent ∅ _ "foo" "bar" 1000 5000001000 5000001000).
  - vm_compute. discriminate.
  - reflexivity.
  - vm_compute. discriminate.
Defined.

(** C6, as stated, fails: [time.Second * time.Duration(seconds)] is a
    64-bit product.  For [seconds = 9223372037] it wraps to a negative
    duration, and [Expire] stamps the entry about 292 years before [now]
    instead of [seconds] seconds after it. *)
Lemma Expire_wraps_counterexample :
  ~ (forall (s : Store) (k : string) (seconds : Z) (now : time.Time) (d : StoreData),
        - 2 ^ 63 <= seconds < 2 ^ 63 ->
        s !! k = Some d ->
        snd (Store_Expire k seconds now s) !! k =
          Some {| value := value d; expiresAt := now + seconds * time.Second |}).
Proof.
  intros H.
  specialize (H {[ "k" := {| value := "v"; expiresAt := 1 |} ]} "k"
                9223372037 2000 {| value := "v"; expiresAt := 1 |}
                ltac:(lia) (lookup_singleton_eq _ _)).
  vm_compute in H. discriminate H.
Qed.

(** C6, amended.  On an absent key [Expire] answers "ERR data not found"
    and the store is unchanged, for every [seconds].  On a present key it
    answers "OK", keeps the entry's value and every other key, for every
    [seconds], and sets the entry's [expiresAt] to [now] plus the duration
    of [seconds] seconds as 64-bit arithmetic computes it: [now] plus
    [seconds] seconds when the count of nanoseconds fits a [Duration]
    (|seconds| <= 9223372036), and the wrapped product beyond. *)
Theorem Expire_contract (s : Store) (k : string) (seconds : Z) (now : time.Time) :
  (s !! k = None ->
     Store_Expire k seconds now s = ("ERR data not found", s))
  /\ (forall d, s !! k = Some d ->
        fst (Store_Expire k seconds now s) = "OK"
        /\ snd (Store_Expire k seconds now s) !! k =
             Some {| value := value d;
                     expiresAt := now + time.wrap64 (seconds * 1000000000) |}
        /\ (forall k', k' <> k ->
              snd (Store_Expire k seconds now s) !! k' = s !! k')
        /\ (- 9223372036 <= seconds <= 9223372036 ->
              snd (Store_Expire k seconds now s) !! k =
                Some {| value := value d;
                        expiresAt := now + seconds * 1000000000 |})).
Proof.
  split.
  - apply Expire_absent.
  - intros d Hd. rewrite (Expire_present _ _ _ _ _ Hd). simpl.
    rewrite seconds_duration_wrapped, lookup_insert_eq.
    split; [reflexivity|]. split; [reflexivity|]. split.
    + intros k' Hne. apply lookup_insert_ne. congruence.
    + intros Hfit. rewrite wrap64_small by lia. reflexivity.
Qed.

Lemma Expire_contract_witness :
  let s : Store := {[ "k" := {| value := "v"; expiresAt := 1 |} ]} in
  Store_Expire "absent" 60 2000 s = ("ERR data not found", s)
  /\ snd (Store_Expire "k" (-3) 2000 s) !! "k" =
       Some {| value := "v"; expiresAt := -2999998000 |}
  /\ fst (Store_Expire "k" 9223372037 2000 s) = "OK"
  /\ snd (Store_Expire "k" 9223372037 2000 s) !! "k" =
       Some {| value := "v"; expiresAt := -9223372036709549616 |}.
Proof.
  pose proof (Expire_contract {[ "k" := {| value := "v"; expiresAt := 1 |} ]}
                "k" 9223372037 2000) as [_ Hwrap].
  destruct (Hwrap {| value := "v"; expiresAt := 1 |} eq_refl)
    as (Hok & Hentry & _ & _).
  split; [|split; [|split]].
  - apply (proj1 (Expire_contract _ "absent" 60 2000)). reflexivity.
  - apply (proj2 (Expire_contract _ "k" (-3) 2000) {| value := "v"; expiresAt := 1 |}).
    + reflexivity.
    + split; vm_compute; discriminate.
  - exact Hok.
  - exact Hentry.
Defined.







(** C8. [Exists(k)] is true exactly when [k] is a key of the map, whatever
    the entry's [expiresAt]; "EXISTS k" renders it as "Yes" or "No" and
    leaves the store alone.  In particular an entry whose expiry has
    passed, but which no read or sweep has removed yet, is reported
    "Yes". *)
Theorem Exists_raw_presence (s : Store) (k : string) (now : time.Time) :
  (Store_Exists k s = true <-> is_Some (s !! k))
  /\ Store_Execute "EXISTS" [k] now s =
       (if Store_Exists k s then "Yes" else "No", s)
  /\ (forall d, s !! k = Some d ->
        expiresAt d <> time.zero -> expiresAt d <= now ->
        fst (Store_Execute "EXISTS" [k] now s) = "Yes"
        /\ fst (Store_Get k now s) = "ERR data expired").
Proof.
  assert (Hexec : Store_Execute "EXISTS" [k] now s =
                  (if Store_Exists k s then "Yes" else "No", s)).
  { unfold Store_Execute, arg. simpl. now destruct (Store_Exists k s). }
  split; [|split].
  - unfold Store_Exists. destruct (s !! k) as [d|].
    + split; [eauto | reflexivity].
    + split; [discriminate | intros [d Hd]; discriminate].
  - exact Hexec.
  - intros d Hd Hz Hle. rewrite Hexec. unfold Store_Exists. rewrite Hd.
    split; [reflexivity|]. now rewrite (Get_expired _ _ _ _ Hd Hz Hle).
Qed.

Lemma Exists_raw_presence_witness :
  let s : Store := {[ "k" := {| value := "v"; expiresAt := 5000 |} ]} in
  fst (Store_Execute "EXISTS" ["k"] 9000 s) = "Yes"
  /\ fst (Store_Get "k" 9000 s) = "ERR data expired".
Proof.
  apply (proj2 (proj2 (Exists_raw_presence _ "k" 9000))
           {| value := "v"; expiresAt := 5000 |}).
  - reflexivity.
  - discriminate.
  - vm_compute. discriminate.
Defined.

(** C9. [Get(k)] and [TTL(k)] change the store in the same way, and only
    when [k] has expired: if [k] is absent, or present with [expiresAt]
    unset or still ahead of [now], the whole map is unchanged; if [k] is
    present and expired, the map afterwards is the one before with [k]
    removed, every other key reading as before. *)
Theorem Get_TTL_frame (s : Store) (k : string) (now : time.Time) :
  snd (Store_Get k now s) = snd (Store_TTL k now s)
  /\ (s !! k = None -> snd (Store_TTL k now s) = s)
  /\ (forall d, s !! k = Some d ->
        expiresAt d = time.zero \/ now < expiresAt d ->
        snd (Store_TTL k now s) = s)
  /\ (forall d, s !! k = Some d ->
        expiresAt d <> time.zero -> expiresAt d <= now ->
        snd (Store_TTL k now s) = delete k s
        /\ snd (Store_TTL k now s) !! k = None
        /\ forall k', k' <> k -> snd (Store_TTL k now s) !! k' = s !! k').
Proof.
  split; [|split; [|split]].
  - unfold Store_Get. destruct (s !! k) as [d|] eqn:Hd.
    + destruct (Store_TTL k now s) as [r s'].
      now destruct (String.eqb r "-1").
    + now rewrite (TTL_absent _ _ _ Hd).
  - intros Hd. now rewrite (TTL_absent _ _ _ Hd).
  - intros d Hd [Hz|Hlt].
    + now rewrite (TTL_never _ _ _ _ Hd Hz).
    + destruct (Z.eq_dec (expiresAt d) time.zero) as [Hz|Hz].
      * now rewrite (TTL_never _ _ _ _ Hd Hz).
      * now rewrite (TTL_live _ _ _ _ Hd Hz Hlt).
  - intros d Hd Hz Hle. rewrite (TTL_expired _ _ _ _ Hd Hz Hle). simpl.
    split; [reflexivity|]. split.
    + apply lookup_delete_eq.
    + intros k' Hne. apply lookup_delete_ne. congruence.
Qed.

Lemma Get_TTL_frame_witness :
  let s : Store := {[ "k" := {| value := "v"; expiresAt := 5000 |} ]} in
  snd (Store_TTL "k" 4000 s) = s
  /\ snd (Store_TTL "k" 5000 s) = delete "k" s.
Proof.
  split.
  - apply (proj1 (proj2 (proj2 (Get_TTL_frame _ "k" 4000)))
             {| value := "v"; expiresAt := 5000 |}).
    + reflexivity.
    + right. reflexivity.
  - apply (proj2 (proj2 (proj2 (Get_TTL_frame _ "k" 5000)))
             {| value := "v"; expiresAt := 5000 |}).
    + reflexivity.
    + discriminate.
    + vm_compute. discriminate.
Defined.

(** C7, as stated, fails for PING: the PING branch of [Execute] returns
    before any argument is counted, so "PING x" is answered "PONG" and not
    with an argument-count error. *)
Lemma Execute_ping_arity_counterexample :
  ~ (forall (verb : string) (args : list string) (now : time.Time) (s : Store),
        In verb known_verbs ->
        length args <> table_arity verb ->
        exists name,
          fst (Store_Execute verb args now s) = ArgumentCountError name).
Proof.
  intros H.
  destruct (H "PING" ["x"] 0 ∅ ltac:(left; reflexivity) ltac:(discriminate))
    as [name Hname].
  vm_compute in Hname. discriminate Hname.
Qed.

Section Dispatcher.

Variables (now : time.Time) (s : Store).

Lemma Execute_unknown (command : string) (args : list string) :
  ~ In command known_verbs ->
  Store_Execute command args now s = ("ERR unknown command", s).
Proof.
  intros Hout. unfold Store_Execute.
  repeat match goal with
  | |- context [String.eqb command ?v] =>
      destruct (String.eqb_spec command v) as [->|_];
      [exfalso; apply Hout; simpl; tauto|]
  end.
  reflexivity.
Qed.

Lemma Execute_SET_arity (args : list string) :
  length args <> 2%nat ->
  Store_Execute "SET" args now s = (ArgumentCountError "set", s).
Proof.
  intros H. apply Nat.eqb_neq in H. unfold Store_Execute. simpl.
  now rewrite H.
Qed.

Lemma Execute_one_arity (verb name : string) (args : list string) :
  (verb, name) ∈ [("GET", "get"); ("DEL", "del"); ("EXISTS", "exists")] ->
  length args <> 1%nat ->
  Store_Execute verb args now s = (ArgumentCountError name, s).
Proof.
  intros Hin H. apply Nat.eqb_neq in H. unfold Store_Execute.
  repeat (apply elem_of_cons in Hin as [[= -> ->]|Hin];
          [simpl; now rewrite H|]).
  now apply elem_of_nil in Hin.
Qed.

Lemma Execute_SET (k v : string) :
  Store_Execute "SET" [k; v] now s = ("OK", snd (Store_Set k v now s)).
Proof.
  unfold Store_Execute, arg. simpl.
  now destruct (Store_Set k v now s).
Qed.

Lemma Execute_DEL (k : string) :
  Store_Execute "DEL" [k] now s = ("OK", delete k s).
Proof. reflexivity. Qed.

Lemma Execute_GET (k : string) :
  Store_Execute "GET" [k] now s =
    (if String.eqb (fst (Store_Get k now s)) ""
     then "ERR property doesn't exist in store"
     else fst (Store_Get k now s),
     snd (Store_Get k now s)).
Proof.
  unfold Store_Execute, arg. simpl.
  destruct (Store_Get k now s) as [r s']. simpl.
  now destruct (String.eqb r "").
Qed.

End Dispatcher.

(** C7, amended.  For every verb and argument list handed to [Execute]: a
    verb outside PING, SET, GET, DEL, EXISTS yields "ERR unknown command";
    SET, GET, DEL or EXISTS with the wrong number of arguments yields the
    argument-count error naming the command; PING yields "PONG" whatever
    its arguments; SET k v yields "OK" after storing; DEL k yields "OK"
    after deleting; EXISTS k yields "Yes" or "No"; GET k yields the stored
    value, or "ERR data doesn't exist" for an absent key, "ERR data
    expired" for an expired one, "ERR property doesn't exist in store"
    for a stored empty string.  These cases cover every call, so no other
    response is possible. *)
Theorem Execute_responses (now : time.Time) (s : Store) :
  (forall command args, ~ In command known_verbs ->
     Store_Execute command args now s = ("ERR unknown command", s))
  /\ (forall args, Store_Execute "PING" args now s = ("PONG", s))
  /\ (forall args, length args <> 2%nat ->
        Store_Execute "SET" args now s = (ArgumentCountError "set", s))
  /\ (forall args, length args <> 1%nat ->
        Store_Execute "GET" args now s = (ArgumentCountError "get", s)
        /\ Store_Execute "DEL" args now s = (ArgumentCountError "del", s)
        /\ Store_Execute "EXISTS" args now s = (ArgumentCountError "exists", s))
  /\ (forall k v,
        Store_Execute "SET" [k; v] now s = ("OK", snd (Store_Set k v now s)))
  /\ (forall k, Store_Execute "DEL" [k] now s = ("OK", Store_Del k s))
  /\ (forall k, Store_Execute "EXISTS" [k] now s =
                  (if Store_Exists k s then "Yes" else "No", s))
  /\ (forall k, s !! k = None ->
        fst (Store_Execute "GET" [k] now s) = "ERR data doesn't exist")
  /\ (forall k d, s !! k = Some d ->
        expiresAt d <> time.zero -> expiresAt d <= now ->
        fst (Store_Execute "GET" [k] now s) = "ERR data expired")
  /\ (forall k d, s !! k = Some d ->
        expiresAt d = time.zero \/ now < expiresAt d ->
        fst (Store_Execute "GET" [k] now s) =
          if String.eqb (value d) ""
          then "ERR property doesn't exist in store" else value d).
Proof.
  split; [intros command args; apply Execute_unknown|].
  split; [reflexivity|].
  split; [apply Execute_SET_arity|].
  split.
  { intros args Hlen.
    split; [|split]; (apply Execute_one_arity; [set_solver | assumption]). }
  split; [apply Execute_SET|].
  split; [apply Execute_DEL|].
  split.
  { intros k. unfold Store_Execute, arg. simpl. now destruct (Store_Exists k s). }
  split.
  { intros k Hk. rewrite Execute_GET, (Get_absent _ _ _ Hk). reflexivity. }
  split.
  - intros k d Hd Hz Hle.
    rewrite Execute_GET, (Get_expired _ _ _ _ Hd Hz Hle). reflexivity.
  - intros k d Hd Hlive. rewrite Execute_GET.
    assert (Hget : Store_Get k now s = (value d, s)).
    { destruct Hlive as [Hz|Hlt];
        [now apply Get_never | now apply Get_unexpired]. }
    rewrite Hget. reflexivity.
Qed.

Lemma Execute_responses_witness :
  let s : Store := {[ "name" := {| value := "John"; expiresAt := 5000 |} ]} in
  Store_Execute "BOGUS" [] 4000 s = ("ERR unknown command", s)
  /\ Store_Execute "SET" ["onlykey"] 4000 s =
       ("ERR wrong number of arguments for 'set' command", s)
  /\ fst (Store_Execute "GET" ["name"] 4000 s) = "John"
  /\ fst (Store_Execute "GET" ["name"] 5000 s) = "ERR data expired".
Proof.
  pose proof (Execute_responses 4000
                {[ "name" := {| value := "John"; expiresAt := 5000 |} ]})
    as (Hunknown & _ & Hset & _ & _ & _ & _ & _ & _ & Hlive).
  pose proof (Execute_responses 5000
                {[ "name" := {| value := "John"; expiresAt := 5000 |} ]})
    as (_ & _ & _ & _ & _ & _ & _ & _ & Hexpired & _).
  split; [|split; [|split]].
  - apply Hunknown. vm_compute. intuition discriminate.
  - apply Hset. discriminate.
  - apply (Hlive "name" {| value := "John"; expiresAt := 5000 |}).
    + reflexivity.
    + right. reflexivity.
  - apply (Hexpired "name" {| value := "John"; expiresAt := 5000 |}).
    + reflexivity.
    + discriminate.
    + vm_compute. discriminate.
Defined.

(** C10. Store and dispatcher disagree on the empty string.  "SET k" with
    the empty value is answered "OK", and within the TTL [Get(k)] on the
    store returns the empty string; yet "GET k" on that live key is
    answered "ERR property doesn't exist in store". *)
Theorem empty_value_divergence (s : Store) (k : string) (t0 t1 : time.Time) :
  t1 - t0 < defaultTTL * time.Second ->
  fst (Store_Execute "SET" [k; ""] t0 s) = "OK"
  /\ Store_Get k t1 (snd (Store_Execute "SET" [k; ""] t0 s)) =
       ("", snd (Store_Execute "SET" [k; ""] t0 s))
  /\ Store_Execute "GET" [k] t1 (snd (Store_Execute "SET" [k; ""] t0 s)) =
       ("ERR property doesn't exist in store",
        snd (Store_Execute "SET" [k; ""] t0 s)).
Proof.
  intros Hlt. rewrite Execute_SET. simpl.
  pose proof (Get_after_Set k "" t0 t1 s Hlt) as Hget.
  split; [reflexivity|]. split; [exact Hget|].
  rewrite Execute_GET, Hget. reflexivity.
Qed.

Lemma empty_value_divergence_witness :
  fst (Store_Execute "SET" ["k"; ""] 1000 ∅) = "OK"
  /\ Store_Get "k" 2000 (snd (Store_Execute "SET" ["k"; ""] 1000 ∅)) =
       ("", snd (Store_Execute "SET" ["k"; ""] 1000 ∅))
  /\ Store_Execute "GET" ["k"] 2000 (snd (Store_Execute "SET" ["k"; ""] 1000 ∅)) =
       ("ERR property doesn't exist in store",
        snd (Store_Execute "SET" ["k"; ""] 1000 ∅)).
Proof.
  apply (empty_value_divergence ∅ "k" 1000 2000).
  vm_compute. reflexivity.
Defined.

(** ** Further properties of the store *)

(** X1. [Del(k)] removes [k] and nothing else, and is idempotent: after it
    [Get(k)] answers "ERR data doesn't exist" at any time, whether or not
    [k] was present; deleting an absent key leaves the store as it was. *)
Theorem Del_then_Get (s : Store) (k : string) (now : time.Time) :
  Store_Get k now (Store_Del k s) = ("ERR data doesn't exist", Store_Del k s)
  /\ Store_Exists k (Store_Del k s) = false
  /\ Store_Del k (Store_Del k s) = Store_Del k s
  /\ (forall k', k' <> k -> Store_Del k s !! k' = s !! k')
  /\ (s !! k = None -> Store_Del k s = s).
Proof.
  unfold Store_Del. split; [|split; [|split; [|split]]].
  - apply Get_absent, lookup_delete_eq.
  - unfold Store_Exists. now rewrite lookup_delete_eq.
  - apply delete_delete_eq.
  - intros k' Hne. apply lookup_delete_ne. congruence.
  - apply delete_id.
Qed.

(** X2. The last [Set] of a key wins: a [Set] over an earlier [Set] of the
    same key leaves exactly the store that it would have left without the
    earlier one, with the later value and an expiry counted from the later
    call. *)
Theorem Set_overwrites (s : Store) (k v1 v2 : string) (t1 t2 : time.Time) :
  Store_Set k v2 t2 (snd (Store_Set k v1 t1 s)) = Store_Set k v2 t2 s
  /\ snd (Store_Set k v2 t2 (snd (Store_Set k v1 t1 s))) !! k =
       Some {| value := v2; expiresAt := t2 + defaultTTL * time.Second |}.
Proof.
  rewrite !Set_eq. simpl. rewrite insert_insert_eq. split; [reflexivity|].
  apply lookup_insert_eq.
Qed.

(** X3. [Set]s of different keys do not disturb each other: they commute,
    and both entries are in the store afterwards. *)
Theorem Set_disjoint_commute (s : Store) (k1 k2 v1 v2 : string) (t1 t2 : time.Time) :
  k1 <> k2 ->
  snd (Store_Set k1 v1 t1 (snd (Store_Set k2 v2 t2 s))) =
    snd (Store_Set k2 v2 t2 (snd (Store_Set k1 v1 t1 s)))
  /\ snd (Store_Set k1 v1 t1 (snd (Store_Set k2 v2 t2 s))) !! k1 =
       Some {| value := v1; expiresAt := t1 + defaultTTL * time.Second |}
  /\ snd (Store_Set k1 v1 t1 (snd (Store_Set k2 v2 t2 s))) !! k2 =
       Some {| value := v2; expiresAt := t2 + defaultTTL * time.Second |}.
Proof.
  intros Hne. rewrite !Set_eq. simpl. split; [|split].
  - now apply insert_insert_ne.
  - apply lookup_insert_eq.
  - rewrite lookup_insert_ne by congruence. apply lookup_insert_eq.
Qed.

Lemma Set_disjoint_commute_witness :
  snd (Store_Set "a" "1" 10 (snd (Store_Set "b" "2" 20 ∅))) =
    snd (Store_Set "b" "2" 20 (snd (Store_Set "a" "1" 10 ∅)))
  /\ snd (Store_Set "a" "1" 10 (snd (Store_Set "b" "2" 20 ∅))) !! "a" =
       Some {| value := "1"; expiresAt := 10 + defaultTTL * time.Second |}
  /\ snd (Store_Set "a" "1" 10 (snd (Store_Set "b" "2" 20 ∅))) !! "b" =
       Some {| value := "2"; expiresAt := 20 + defaultTTL * time.Second |}.
Proof.
  apply (Set_disjoint_commute ∅ "a" "b" "1" "2" 10 20). discriminate.
Defined.

(** X4. [Expire] moves the deadline that [Get] enforces.  For a present
    key and [seconds] within the range of a [Duration], with the new
    deadline [now + seconds] not the zero Time: a [Get] before the deadline
    returns the value, which [Expire] has not changed; a [Get] at or after
    it answers "ERR data expired" and deletes the key.  So zero or
    negative [seconds] expire the key for every read that follows. *)
Theorem Expire_then_Get (s : Store) (k : string) (d : StoreData)
    (seconds : Z) (now t : time.Time) :
  s !! k = Some d ->
  time.minDuration <= seconds * time.Second <= time.maxDuration ->
  now + seconds * time.Second <> time.zero ->
  (t < now + seconds * time.Second ->
     Store_Get k t (snd (Store_Expire k seconds now s)) =
       (value d, snd (Store_Expire k seconds now s)))
  /\ (now + seconds * time.Second <= t ->
        Store_Get k t (snd (Store_Expire k seconds now s)) =
          ("ERR data expired", delete k s))
  /\ (seconds <= 0 -> now <= t ->
        Store_Get k t (snd (Store_Expire k seconds now s)) =
          ("ERR data expired", delete k s)).
Proof.
  intros Hd Hfit Hnz.
  rewrite (Expire_present _ _ _ _ _ Hd), (seconds_duration _ Hfit). simpl.
  set (d' := {| value := value d; expiresAt := now + seconds * time.Second |}).
  assert (Hd' : <[k := d']> s !! k = Some d') by apply lookup_insert_eq.
  assert (Hexp : now + seconds * time.Second <= t ->
                 Store_Get k t (<[k := d']> s) = ("ERR data expired", delete k s)).
  { intros Hle. rewrite (Get_expired _ _ _ _ Hd' Hnz Hle).
    now rewrite delete_insert_eq. }
  split; [|split].
  - intros Hlt. now rewrite (Get_live _ _ _ _ Hd' Hnz Hlt).
  - exact Hexp.
  - intros Hneg Hle. apply Hexp. unfold time.Second. lia.
Qed.

Lemma Expire_then_Get_witness :
  let s : Store := {[ "k" := {| value := "v"; expiresAt := 1 |} ]} in
  Store_Get "k" 2000 (snd (Store_Expire "k" 0 2000 s)) =
    ("ERR data expired", delete "k" s).
Proof.
  apply (proj2 (proj2 (Expire_then_Get _ "k" {| value := "v"; expiresAt := 1 |}
                         0 2000 2000 (lookup_singleton_eq _ _)
                         ltac:(vm_compute; split; discriminate)
                         ltac:(discriminate)))).
  - reflexivity.
  - reflexivity.
Defined.

(** X5. While a key is live [TTL] counts down: for an entry that expires
    after [t2], and clock readings [t1 <= t2], both calls leave the store
    alone and the number of seconds answered at [t2] is not negative and
    not above the one answered at [t1] (remaining durations in the range
    where the float conversion is exact). *)
Theorem TTL_counts_down (s : Store) (k : string) (d : StoreData) (t1 t2 : time.Time) :
  s !! k = Some d ->
  expiresAt d <> time.zero ->
  t1 <= t2 -> t2 < expiresAt d ->
  time.exact_seconds (expiresAt d - t1) ->
  exists n1 n2,
    Store_TTL k t1 s = (strconv.Itoa n1, s)
    /\ Store_TTL k t2 s = (strconv.Itoa n2, s)
    /\ 0 <= n2 <= n1.
Proof.
  intros Hd Hz H12 Hlive Hexact.
  unfold time.exact_seconds, time.Second in Hexact.
  exists (time.Seconds_int (expiresAt d - t1)), (time.Seconds_int (expiresAt d - t2)).
  rewrite !(TTL_live _ _ _ _ Hd Hz) by lia.
  rewrite !Sub_exact by (unfold time.minDuration, time.maxDuration; lia).
  split; [reflexivity|]. split; [reflexivity|]. split.
  - apply Seconds_int_nonneg. lia.
  - unfold time.Seconds_int, time.Second.
    rewrite !Z.quot_div_nonneg by lia. apply Z.div_le_mono; lia.
Qed.

Lemma TTL_counts_down_witness :
  let s : Store := {[ "k" := {| value := "v"; expiresAt := 5000001000 |} ]} in
  exists n1 n2,
    Store_TTL "k" 1000 s = (strconv.Itoa n1, s)
    /\ Store_TTL "k" 1200000000 s = (strconv.Itoa n2, s)
    /\ 0 <= n2 <= n1.
Proof.
  apply (TTL_counts_down _ "k" {| value := "v"; expiresAt := 5000001000 |}
           1000 1200000000 (lookup_singleton_eq _ _)).
  - discriminate.
  - vm_compute. discriminate.
  - reflexivity.
  - vm_compute. reflexivity.
Defined.

(** X6. A key written by [Set] is never reported immortal.  With clock
    readings not before the zero Time and [t1] not before the [Set]: until
    5 seconds have passed [TTL] answers a number of seconds between 0 and
    5 and leaves the store alone; from then on it answers "-1" and deletes
    the key. *)
Theorem TTL_after_Set (s : Store) (k v : string) (t0 t1 : time.Time) :
  time.zero <= t0 -> t0 <= t1 ->
  (t1 < t0 + defaultTTL * time.Second ->
     exists n, Store_TTL k t1 (snd (Store_Set k v t0 s)) =
                 (strconv.Itoa n, snd (Store_Set k v t0 s))
       /\ 0 <= n <= defaultTTL)
  /\ (t0 + defaultTTL * time.Second <= t1 ->
        Store_TTL k t1 (snd (Store_Set k v t0 s)) = ("-1", delete k s)).
Proof.
  intros Hclock Hafter. rewrite Set_eq. simpl.
  set (d := {| value := v; expiresAt := t0 + 5 * time.Second |}).
  assert (Hd : <[k := d]> s !! k = Some d) by apply lookup_insert_eq.
  assert (Hz : expiresAt d <> time.zero)
    by (simpl; unfold time.zero, time.Second in *; lia).
  unfold defaultTTL, time.zero, time.Second in *. split.
  - intros Hlt.
    exists (time.Seconds_int (t0 + 5 * 1000000000 - t1)).
    rewrite (TTL_live _ _ _ _ Hd Hz) by (simpl; unfold time.Second; lia).
    simpl. unfold time.Second.
    rewrite Sub_exact by (unfold time.minDuration, time.maxDuration; lia).
    split; [reflexivity|]. split.
    + apply Seconds_int_nonneg. lia.
    + unfold time.Seconds_int, time.Second.
      rewrite Z.quot_div_nonneg by lia.
      apply Z.div_le_upper_bound; lia.
  - intros Hle.
    rewrite (TTL_expired _ _ _ _ Hd Hz) by (simpl; unfold time.Second; lia).
    now rewrite delete_insert_eq.
Qed.

Lemma TTL_after_Set_witness :
  Store_TTL "k" 6000000000 (snd (Store_Set "k" "v" 1000000000 ∅)) =
    ("-1", delete "k" ∅).
Proof.
  apply (proj2 (TTL_after_Set ∅ "k" "v" 1000000000 6000000000
                  ltac:(vm_compute; discriminate)
                  ltac:(vm_compute; discriminate))).
  vm_compute. discriminate.
Defined.

(** ** Further properties of the janitor *)

(** A pass at a later reading of the clock absorbs an earlier one. *)
Lemma cleanup_absorbs (s : Store) (t1 t2 : time.Time) :
  t1 <= t2 ->
  Store_cleanup t2 (Store_cleanup t1 s) = Store_cleanup t2 s.
Proof.
  intros Hle. apply map_eq. intros k. rewrite !cleanup_lookup.
  destruct (s !! k) as [d|]; [|reflexivity].
  destruct (negb (time.IsZero (expiresAt d)) && time.After t1 (expiresAt d))
    eqn:H1; [|reflexivity].
  apply cleanup_test in H1 as [Hz Hlt].
  assert (Hlt2 : expiresAt d < t2) by lia.
  now rewrite (proj2 (cleanup_test t2 d) (conj Hz Hlt2)).
Qed.

(** What [Get] and [TTL] answer for a key depends on that key's entry
    only. *)
Lemma Get_response_entry (s s' : Store) (k : string) (now : time.Time) :
  s !! k = s' !! k ->
  fst (Store_Get k now s) = fst (Store_Get k now s')
  /\ fst (Store_TTL k now s) = fst (Store_TTL k now s').
Proof.
  intros H. unfold Store_Get, Store_TTL. rewrite <- H.
  destruct (s !! k) as [d|]; [|split; reflexivity].
  destruct (time.IsZero (expiresAt d)); [split; reflexivity|].
  destruct (time.Until now (expiresAt d) <=? 0); simpl; [split; reflexivity|].
  destruct (String.eqb _ "-1"); split; reflexivity.
Qed.

(** X7. The janitor's passes accumulate nothing: a run of passes whose
    last clock reading is the latest leaves the store that this last pass
    alone leaves; in particular a pass repeated at the same reading changes
    nothing more. *)
Theorem janitor_last_pass (s : Store) (ticks : list time.Time) (t : time.Time) :
  Forall (fun u => u <= t) ticks ->
  janitor (ticks ++ [t]) s = Store_cleanup t s
  /\ Store_cleanup t (Store_cleanup t s) = Store_cleanup t s.
Proof.
  intros Hticks. split.
  - revert s. induction Hticks as [|u ticks Hu _ IH]; intros s.
    + reflexivity.
    + simpl. unfold janitor in IH. rewrite IH. now apply cleanup_absorbs.
  - apply cleanup_absorbs. lia.
Qed.

Lemma janitor_last_pass_witness :
  let s : Store := {[ "k" := {| value := "v"; expiresAt := 5000 |} ]} in
  janitor ([3000; 6000] ++ [9000]) s = Store_cleanup 9000 s
  /\ Store_cleanup 9000 (Store_cleanup 9000 s) = Store_cleanup 9000 s.
Proof.
  apply (janitor_last_pass _ [3000; 6000] 9000).
  repeat constructor; vm_compute; discriminate.
Defined.

(** X8. The janitor removes a key that is set and never read again: with
    the clock of the [Set] not before the zero Time, a pass later than 5
    seconds after the [Set] leaves the key absent, and a pass up to that
    moment leaves the entry as [Set] wrote it. *)
Theorem cleanup_after_Set (s : Store) (k v : string) (t0 now : time.Time) :
  time.zero <= t0 ->
  (t0 + defaultTTL * time.Second < now ->
     Store_cleanup now (snd (Store_Set k v t0 s)) !! k = None)
  /\ (now <= t0 + defaultTTL * time.Second ->
        Store_cleanup now (snd (Store_Set k v t0 s)) !! k =
          Some {| value := v; expiresAt := t0 + defaultTTL * time.Second |}).
Proof.
  intros Hclock. rewrite Set_eq. simpl. rewrite cleanup_lookup, lookup_insert_eq.
  unfold defaultTTL, time.zero, time.Second in *.
  set (d := {| value := v; expiresAt := t0 + 5 * 1000000000 |}).
  destruct (negb (time.IsZero (expiresAt d)) && time.After now (expiresAt d))
    eqn:Htest.
  - apply cleanup_test in Htest as [_ Hlt]. simpl in Hlt.
    split; [reflexivity | lia].
  - split; [|reflexivity]. intros Hlt.
    assert (Htrue : negb (time.IsZero (expiresAt d)) && time.After now (expiresAt d) = true).
    { apply cleanup_test. simpl. unfold time.zero. lia. }
    congruence.
Qed.

Lemma cleanup_after_Set_witness :
  Store_cleanup 6000000001 (snd (Store_Set "k" "v" 1000000000 ∅)) !! "k" = None.
Proof.
  apply (proj1 (cleanup_after_Set ∅ "k" "v" 1000000000 6000000001
                  ltac:(vm_compute; discriminate))).
  reflexivity.
Defined.

(** X9. A janitor pass never takes away what a read would still return:
    for a read of [k] at a clock reading not before that of the pass, the
    answer of [Get] after the pass is the answer without the pass, except
    that "ERR data expired" may have become "ERR data doesn't exist". *)
Theorem cleanup_invisible_to_Get (s : Store) (k : string) (now t : time.Time) :
  now <= t ->
  fst (Store_Get k t (Store_cleanup now s)) = fst (Store_Get k t s)
  \/ (fst (Store_Get k t s) = "ERR data expired"
      /\ fst (Store_Get k t (Store_cleanup now s)) = "ERR data doesn't exist").
Proof.
  intros Hle.
  pose proof (cleanup_lookup now s k) as Hk.
  destruct (s !! k) as [d|] eqn:Hd.
  - destruct (negb (time.IsZero (expiresAt d)) && time.After now (expiresAt d))
      eqn:Htest.
    + right. apply cleanup_test in Htest as [Hz Hlt].
      rewrite (Get_expired _ _ _ _ Hd Hz) by lia.
      now rewrite (Get_absent _ _ _ Hk).
    + left. apply Get_response_entry. now rewrite Hk, Hd.
  - left. apply Get_response_entry. now rewrite Hk, Hd.
Qed.

Lemma cleanup_invisible_to_Get_witness :
  let s : Store := {[ "k" := {| value := "v"; expiresAt := 5000 |} ]} in
  fst (Store_Get "k" 4000 (Store_cleanup 3000 s)) = fst (Store_Get "k" 4000 s)
  \/ (fst (Store_Get "k" 4000 s) = "ERR data expired"
      /\ fst (Store_Get "k" 4000 (Store_cleanup 3000 s)) = "ERR data doesn't exist").
Proof.
  apply (cleanup_invisible_to_Get _ "k" 3000 4000). vm_compute. discriminate.
Defined.

(** ** Further properties of the dispatcher *)

(** The three ways in which a command can leave the store. *)
Lemma Execute_store (command : string) (args : list string)
    (now : time.Time) (s : Store) :
  snd (Store_Execute command args now s) = s
  \/ snd (Store_Execute command args now s) = delete (arg args 0) s
  \/ (command = "SET" /\ length args = 2%nat
      /\ snd (Store_Execute command args now s) =
           <[arg args 0 := {| value := arg args 1;
                              expiresAt := now + defaultTTL * time.Second |}]> s).
Proof.
  unfold Store_Execute.
  destruct (String.eqb_spec command "PING"); [now left|].
  destruct (String.eqb_spec command "SET") as [->|_].
  { destruct (Nat.eqb_spec (length args) 2) as [Hlen|_]; simpl; [|now left].
    right. right. rewrite Set_eq. simpl. auto. }
  destruct (String.eqb_spec command "GET").
  { destruct (length args =? 1)%nat; simpl; [|now left].
    pose proof (Get_store s (arg args 0) now) as Hget.
    destruct (Store_Get (arg args 0) now s) as [r s']. simpl in Hget.
    destruct (String.eqb r ""); simpl; tauto. }
  destruct (String.eqb_spec command "DEL").
  { destruct (length args =? 1)%nat; simpl; [now right; left | now left]. }
  destruct (String.eqb_spec command "EXISTS"); [|now left].
  destruct (length args =? 1)%nat; simpl; [|now left].
  destruct (Store_Exists (arg args 0) s); now left.
Qed.



Lemma Execute_nonempty (command : string) (args : list string)
    (now : time.Time) (s : Store) :
  fst (Store_Execute command args now s) <> "".
Proof.
  unfold Store_Execute.
  repeat match goal with
  | |- context [String.eqb command ?v] => destruct (String.eqb command v)
  | |- context [negb (?a =? ?b)%nat] => destruct (a =? b)%nat; simpl
  end; try discriminate.
  - destruct (Store_Set (arg args 0) (arg args 1) now s). discriminate.
  - destruct (Store_Get (arg args 0) now s) as [r s'].
    destruct (String.eqb_spec r ""); simpl; [discriminate | assumption].
  - destruct (Store_Exists (arg args 0) s); discriminate.
Qed.

(** X11. [Execute] never answers the empty string: whatever the command,
    the arguments and the store, the response has at least one byte (an
    empty result of [Get] is replaced by an error message). *)
Theorem Execute_never_empty (command : string) (args : list string)
    (now : time.Time) (s : Store) :
  fst (Store_Execute command args now s) <> "".
Proof. apply Execute_nonempty. Qed.

(** X12. Only SET creates or changes an entry: after any command whose
    verb is not SET, every entry of the store is an entry that was there
    before the command, unchanged. *)
Theorem Execute_only_SET_writes (command : string) (args : list string)
    (now : time.Time) (s : Store) :
  command <> "SET" ->
  snd (Store_Execute command args now s) ⊆ s.
Proof.
  intros Hcmd.
  destruct (Execute_store command args now s) as [->|[->|(Hset & _)]].
  - reflexivity.
  - apply delete_subseteq.
  - contradiction.
Qed.

Lemma Execute_only_SET_writes_witness :
  let s : Store := {[ "k" := {| value := "v"; expiresAt := 5000 |} ]} in
  snd (Store_Execute "GET" ["k"] 9000 s) ⊆ s.
Proof.
  apply (Execute_only_SET_writes "GET" ["k"] 9000). discriminate.
Defined.

Lemma Execute_expiry (command : string) (args : list string)
    (now bound : time.Time) (s : Store) :
  time.zero <= now ->
  expiry_bounded bound s ->
  expiry_bounded (Z.max bound (now + defaultTTL * time.Second))
    (snd (Store_Execute command args now s)).
Proof.
  intros Hclock Hs k d.
  destruct (Execute_store command args now s) as [->|[->|(_ & _ & ->)]].
  - intros Hd. destruct (Hs k d Hd). split; [assumption | lia].
  - intros Hd. apply lookup_delete_Some in Hd as [_ Hd].
    destruct (Hs k d Hd). split; [assumption | lia].
  - intros Hd. apply lookup_insert_Some in Hd as [[_ <-]|[_ Hd]].
    + simpl. unfold time.zero, defaultTTL, time.Second in *. lia.
    + destruct (Hs k d Hd). split; [assumption | lia].
Qed.

(** X13. Through the dispatcher every entry is mortal.  If every entry of
    the store has an expiry, none later than [bound], then after any
    command run at a clock reading [now] (not before the zero Time) every
    entry has an expiry, none later than the later of [bound] and
    [now] plus 5 seconds. *)
Theorem Execute_keeps_expiry_bounded (command : string) (args : list string)
    (now bound : time.Time) (s : Store) :
  time.zero <= now ->
  expiry_bounded bound s ->
  expiry_bounded (Z.max bound (now + defaultTTL * time.Second))
    (snd (Store_Execute command args now s)).
Proof. apply Execute_expiry. Qed.

Lemma Execute_keeps_expiry_bounded_witness :
  expiry_bounded (Z.max 0 (1000 + defaultTTL * time.Second))
    (snd (Store_Execute "SET" ["k"; "v"] 1000 ∅)).
Proof.
  apply (Execute_keeps_expiry_bounded "SET" ["k"; "v"] 1000 0 ∅).
  - vm_compute. discriminate.
  - intros k d Hd. rewrite lookup_empty in Hd. discriminate Hd.
Defined.

Lemma cleanup_bounded_empty (s : Store) (bound now : time.Time) :
  expiry_bounded bound s ->
  bound < now ->
  Store_cleanup now s = ∅.
Proof.
  intros Hs Hlate. apply map_eq. intros k.
  rewrite cleanup_lookup, lookup_empty.
  destruct (s !! k) as [d|] eqn:Hd; [|reflexivity].
  destruct (Hs k d Hd) as [Hz Hle].
  assert (Hlt : expiresAt d < now) by lia.
  now rewrite (proj2 (cleanup_test now d) (conj Hz Hlt)).
Qed.

(** X14. No entry outlives its deadline by more than one pass: when every
    entry of the store has an expiry, none later than [bound], a janitor
    pass at a clock reading after [bound] leaves the store empty. *)
Theorem cleanup_empties (s : Store) (bound now : time.Time) :
  expiry_bounded bound s ->
  bound < now ->
  Store_cleanup now s = ∅.
Proof. apply cleanup_bounded_empty. Qed.

Lemma cleanup_empties_witness :
  Store_cleanup 6000 {[ "k" := {| value := "v"; expiresAt := 5000 |} ]} = ∅.
Proof.
  apply (cleanup_empties _ 5000 6000).
  - intros k d Hd. apply lookup_singleton_Some in Hd as [_ <-]. simpl.
    split; [discriminate | reflexivity].
  - reflexivity.
Defined.

(** ** The earlier store against the later one *)

Lemma Inline_Set_eq (s : Store) (k v : string) (now : time.Time) :
  Inline.Store_Set k v now s = snd (Store_Set k v now s).
Proof. rewrite Set_eq. reflexivity. Qed.

Lemma Inline_Get_eq (s : Store) (k : string) (now : time.Time) :
  (forall d, s !! k = Some d ->
     expiresAt d <> time.zero /\ expiresAt d <> now) ->
  Inline.Store_Get k now s = Store_Get k now s.
Proof.
  intros Hk. unfold Inline.Store_Get.
  destruct (s !! k) as [d|] eqn:Hd.
  - destruct (Hk d eq_refl) as [Hz Hne]. unfold time.After.
    destruct (Z.ltb_spec (expiresAt d) now).
    + now rewrite (Get_expired _ _ _ _ Hd Hz) by lia.
    + now rewrite (Get_live _ _ _ _ Hd Hz) by lia.
  - now rewrite (Get_absent _ _ _ Hd).
Qed.

(** X15. The earlier version of the store reads a written key through the
    whole of its 5 seconds, the last instant included: [Get] returns the
    value when at most 5 seconds have passed since the [Set], and answers
    "ERR data expired", deleting the key, once more than 5 seconds have
    passed. *)
Theorem Inline_Set_then_Get (s : Store) (k v : string) (t0 t1 : time.Time) :
  (t1 <= t0 + 5 * time.Second ->
     Inline.Store_Get k t1 (Inline.Store_Set k v t0 s) =
       (v, Inline.Store_Set k v t0 s))
  /\ (t0 + 5 * time.Second < t1 ->
        Inline.Store_Get k t1 (Inline.Store_Set k v t0 s) =
          ("ERR data expired", delete k s)).
Proof.
  unfold Inline.Store_Get, Inline.Store_Set, time.After, time.Add.
  rewrite lookup_insert_eq. simpl.
  change (time.mul time.Millisecond 5000) with (5 * time.Second).
  destruct (Z.ltb_spec (t0 + 5 * time.Second) t1); split; intros H';
    try lia; try reflexivity.
  now rewrite delete_insert_eq.
Qed.

Lemma Inline_Set_then_Get_witness :
  Inline.Store_Get "k" 5000001000 (Inline.Store_Set "k" "v" 1000 ∅) =
    ("v", Inline.Store_Set "k" "v" 1000 ∅).
Proof.
  apply (proj1 (Inline_Set_then_Get ∅ "k" "v" 1000 5000001000)).
  vm_compute. discriminate.
Defined.

(** X16. The two versions of the program answer every command alike and
    leave the same store, on a store in which every entry has an expiry
    and none expires exactly at the clock reading of the command. *)
Theorem Inline_Execute_agrees (command : string) (args : list string)
    (now : time.Time) (s : Store) :
  (forall k d, s !! k = Some d ->
     expiresAt d <> time.zero /\ expiresAt d <> now) ->
  Inline.Store_Execute command args now s = Store_Execute command args now s.
Proof.
  intros Hs. unfold Inline.Store_Execute, Store_Execute.
  rewrite (Inline_Get_eq s (arg args 0) now (Hs (arg args 0))).
  rewrite Inline_Set_eq.
  now destruct (Store_Set (arg args 0) (arg args 1) now s).
Qed.

Lemma Inline_Execute_agrees_witness :
  let s : Store := {[ "k" := {| value := "v"; expiresAt := 5000 |} ]} in
  Inline.Store_Execute "GET" ["k"] 6000 s = Store_Execute "GET" ["k"] 6000 s.
Proof.
  apply (Inline_Execute_agrees "GET" ["k"] 6000).
  intros k d Hd. apply lookup_singleton_Some in Hd as [_ <-]. simpl.
  split; discriminate.
Defined.

(** X17. The versions differ on the instant of expiry: for an entry whose
    expiry is exactly the clock reading of the call, [Get] of the earlier
    version still returns the value and keeps the entry, where [Get] of
    the later version answers "ERR data expired" and deletes it. *)
Theorem Inline_Get_boundary (s : Store) (k : string) (d : StoreData) (now : time.Time) :
  s !! k = Some d ->
  expiresAt d = now ->
  now <> time.zero ->
  Inline.Store_Get k now s = (value d, s)
  /\ Store_Get k now s = ("ERR data expired", delete k s).
Proof.
  intros Hd He Hz. split.
  - unfold Inline.Store_Get, time.After. rewrite Hd, He.
    now rewrite Z.ltb_irrefl.
  - apply (Get_expired _ _ _ _ Hd); [congruence | lia].
Qed.

Lemma Inline_Get_boundary_witness :
  let s : Store := {[ "k" := {| value := "v"; expiresAt := 5000 |} ]} in
  Inline.Store_Get "k" 5000 s = ("v", s)
  /\ Store_Get "k" 5000 s = ("ERR data expired", delete "k" s).
Proof.
  apply (Inline_Get_boundary _ "k" {| value := "v"; expiresAt := 5000 |} 5000).
  - reflexivity.
  - reflexivity.
  - discriminate.
Defined.

(** ** Fields, trimming and upper case *)

Section StringFacts.

Import strings.

Implicit Types (s cur w : string) (c : ascii).

Lemma append_cons c s1 s2 : String c s1 ++ s2 = String c (s1 ++ s2).
Proof. reflexivity. Qed.

Lemma append_empty_l s : "" ++ s = s.
Proof. reflexivity. Qed.

Lemma append_empty_r s : s ++ "" = s.
Proof.
  induction s as [|c r IH]; [reflexivity|]. now rewrite append_cons, IH.
Qed.

Lemma append_assoc s1 s2 s3 : (s1 ++ s2) ++ s3 = s1 ++ (s2 ++ s3).
Proof.
  induction s1 as [|c r IH]; [reflexivity|]. now rewrite !append_cons, IH.
Qed.

Lemma append_nonempty_r s c : s ++ String c "" <> "".
Proof. destruct s; [|rewrite append_cons]; discriminate. Qed.

Lemma TrimLeft_empty_iff s : TrimLeft s = "" <-> blank s = true.
Proof.
  induction s as [|c r IH]; simpl; [tauto|].
  destruct (asciiSpace c); simpl; [exact IH|]. split; discriminate.
Qed.

Lemma TrimRight_empty_iff s : TrimRight s = "" <-> blank s = true.
Proof.
  induction s as [|c r IH]; simpl; [tauto|].
  destruct (TrimRight r) as [|c' r'] eqn:Hr.
  - destruct (asciiSpace c); simpl; [|split; discriminate].
    split; intros _; [now apply IH | reflexivity].
  - split; [discriminate|]. intros H. apply andb_true_iff in H as [_ H].
    apply IH in H. discriminate H.
Qed.

Lemma blank_TrimLeft s : blank (TrimLeft s) = blank s.
Proof.
  induction s as [|c r IH]; simpl; [reflexivity|].
  destruct (asciiSpace c) eqn:Hc; simpl; [exact IH | now rewrite Hc].
Qed.

Lemma TrimSpace_empty_iff s : TrimSpace s = "" <-> blank s = true.
Proof.
  unfold TrimSpace. rewrite TrimRight_empty_iff, blank_TrimLeft. tauto.
Qed.

(** The fields of a blank rest: the field being read, if any. *)
Lemma fields_from_blank cur s :
  blank s = true ->
  fields_from cur s = match cur with EmptyString => [] | _ => [cur] end.
Proof.
  revert cur. induction s as [|c r IH]; intros cur H; simpl; [reflexivity|].
  simpl in H. apply andb_true_iff in H as [Hc Hr]. rewrite Hc.
  rewrite (IH "" Hr). now destruct cur.
Qed.

Lemma fields_from_nil_iff cur s :
  fields_from cur s = [] <-> cur = "" /\ blank s = true.
Proof.
  revert cur. induction s as [|c r IH]; intros cur; simpl.
  - destruct cur; split; intros H; try tauto; try discriminate.
    destruct H; discriminate.
  - destruct (asciiSpace c); simpl.
    + destruct cur; [apply IH|]. split; [discriminate | intros [H _]; discriminate].
    + rewrite IH. split; [|intros [_ H]; discriminate].
      intros [H _]. now apply append_nonempty_r in H.
Qed.

Lemma Fields_TrimLeft s : Fields (TrimLeft s) = Fields s.
Proof.
  unfold Fields. induction s as [|c r IH]; simpl; [reflexivity|].
  destruct (asciiSpace c) eqn:Hc; simpl; [exact IH | now rewrite Hc].
Qed.

Lemma fields_from_TrimRight cur s :
  fields_from cur (TrimRight s) = fields_from cur s.
Proof.
  revert cur. induction s as [|c r IH]; intros cur; simpl; [reflexivity|].
  destruct (TrimRight r) as [|c' r'] eqn:Hr.
  - assert (Hb : blank r = true) by now apply TrimRight_empty_iff.
    destruct (asciiSpace c) eqn:Hc; simpl.
    + rewrite (fields_from_blank "" r Hb). now destruct cur.
    + rewrite Hc. rewrite (fields_from_blank _ r Hb).
      destruct (cur ++ String c "") eqn:E; [|reflexivity].
      now apply append_nonempty_r in E.
  - simpl. destruct (asciiSpace c); simpl.
    + rewrite <- (IH ""). now destruct cur.
    + now rewrite <- IH.
Qed.

(** Trimming a line does not change its fields. *)
Lemma Fields_TrimSpace s : Fields (TrimSpace s) = Fields s.
Proof.
  unfold TrimSpace, Fields. rewrite fields_from_TrimRight.
  apply Fields_TrimLeft.
Qed.

Lemma spaceless_app s1 s2 :
  spaceless (s1 ++ s2) = spaceless s1 && spaceless s2.
Proof.
  induction s1 as [|c r IH]; [reflexivity|].
  rewrite append_cons. simpl. rewrite IH. now rewrite andb_assoc.
Qed.

(** Every field is a token. *)
Lemma fields_from_tokens cur s :
  spaceless cur = true -> Forall token (fields_from cur s).
Proof.
  revert cur. induction s as [|c r IH]; intros cur Hcur; simpl.
  - destruct cur; constructor; [|constructor]. split; [discriminate | assumption].
  - destruct (asciiSpace c) eqn:Hc.
    + destruct cur; [now apply IH|]. constructor.
      * split; [discriminate | assumption].
      * now apply IH.
    + apply IH. rewrite spaceless_app, Hcur. simpl. now rewrite Hc.
Qed.

Lemma Fields_tokens s : Forall token (Fields s).
Proof. now apply fields_from_tokens. Qed.

(** Reading a token extends the field being read. *)
Lemma fields_from_token cur w s :
  spaceless w = true ->
  fields_from cur (w ++ s) = fields_from (cur ++ w) s.
Proof.
  revert cur. induction w as [|c r IH]; intros cur Hw.
  - now rewrite append_empty_l, append_empty_r.
  - simpl in Hw. apply andb_true_iff in Hw as [Hc Hr].
    apply negb_true_iff in Hc. rewrite append_cons. simpl.
    rewrite Hc, (IH _ Hr). now rewrite append_assoc.
Qed.

(** The fields of words joined by spaces and followed by space bytes are
    the words. *)
Lemma Fields_unwords (ws : list string) (tail : string) :
  Forall token ws -> blank tail = true ->
  Fields (unwords ws ++ tail) = ws.
Proof.
  intros Hws Htail. unfold Fields.
  induction Hws as [|w ws [Hne Hw] Hws IH].
  - rewrite append_empty_l. now rewrite (fields_from_blank "" tail Htail).
  - destruct ws as [|w' ws'].
    + change (unwords [w]) with w.
      rewrite (fields_from_token "" w tail Hw), append_empty_l.
      rewrite (fields_from_blank w tail Htail). now destruct w.
    + change (unwords (w :: w' :: ws')) with (w ++ " " ++ unwords (w' :: ws')).
      rewrite !append_assoc, (fields_from_token "" w _ Hw), append_empty_l.
      rewrite append_cons, append_empty_l.
      change (fields_from w (String " " (unwords (w' :: ws') ++ tail)))
        with (match w with
              | EmptyString => fields_from "" (unwords (w' :: ws') ++ tail)
              | _ => w :: fields_from "" (unwords (w' :: ws') ++ tail)
              end).
      rewrite IH. now destruct w.
Qed.

Lemma upper_not_space c : asciiSpace c = false -> asciiSpace (upper c) = false.
Proof.
  intros Hc. unfold upper.
  destruct ((97 <=? N_of_ascii c) && (N_of_ascii c <=? 122))%N eqn:Hr;
    [|assumption].
  apply andb_true_iff in Hr as [H1 H2].
  apply N.leb_le in H1, H2. unfold asciiSpace.
  rewrite N_ascii_embedding by lia.
  destruct (N.leb_spec 9 (N_of_ascii c - 32)),
           (N.leb_spec (N_of_ascii c - 32) 13),
           (N.eqb_spec (N_of_ascii c - 32) 32); simpl; try reflexivity; lia.
Qed.

Lemma ToUpper_token w : token w -> token (ToUpper w).
Proof.
  intros [Hne Hw]. split; [destruct w; [contradiction | discriminate]|].
  clear Hne. induction w as [|c r IH]; simpl; [reflexivity|].
  simpl in Hw. apply andb_true_iff in Hw as [Hc Hr].
  apply negb_true_iff in Hc. now rewrite (upper_not_space c Hc), IH.
Qed.

Lemma upper_idempotent c : upper (upper c) = upper c.
Proof.
  unfold upper at 2 3.
  destruct ((97 <=? N_of_ascii c) && (N_of_ascii c <=? 122))%N eqn:Hr.
  - apply andb_true_iff in Hr as [H1 H2]. apply N.leb_le in H1, H2.
    unfold upper. rewrite N_ascii_embedding by lia.
    destruct (N.leb_spec 97 (N_of_ascii c - 32)); simpl; [lia | reflexivity].
  - unfold upper. now rewrite Hr.
Qed.

Lemma ToUpper_idempotent s : ToUpper (ToUpper s) = ToUpper s.
Proof.
  induction s as [|c r IH]; simpl; [reflexivity|].
  now rewrite upper_idempotent, IH.
Qed.

End StringFacts.

(** ** Reading lines *)

Section ReadFacts.

Import strings bufio.

Implicit Types (input line rest tail w : string) (c delim : ascii).

Lemma length_app (s1 s2 : string) :
  String.length (s1 ++ s2) = (String.length s1 + String.length s2)%nat.
Proof.
  induction s1 as [|c r IH]; [reflexivity|].
  rewrite append_cons. simpl. now rewrite IH.
Qed.

Lemma ReadString_split delim input line rest :
  ReadString delim input = Some (line, rest) ->
  input = line ++ rest
  /\ (String.length rest < String.length input)%nat.
Proof.
  revert line. induction input as [|c r IH]; intros line H; simpl in H;
    [discriminate|].
  destruct (Ascii.eqb c delim).
  - injection H as <- <-. split; [reflexivity | simpl; lia].
  - destruct (ReadString delim r) as [[l rest']|]; [|discriminate].
    injection H as <- <-. destruct (IH l eq_refl) as [-> Hlen].
    split; [reflexivity | simpl; lia].
Qed.

Lemma ReadString_Some_app delim input line rest tail :
  ReadString delim input = Some (line, rest) ->
  ReadString delim (input ++ tail) = Some (line, rest ++ tail).
Proof.
  revert line. induction input as [|c r IH]; intros line H; simpl in H;
    [discriminate|].
  rewrite append_cons. simpl. destruct (Ascii.eqb c delim).
  - now injection H as <- <-.
  - destruct (ReadString delim r) as [[l rest']|]; [|discriminate].
    injection H as <- <-. now rewrite (IH l eq_refl).
Qed.

Lemma ReadString_None_app delim input tail :
  ReadString delim input = None ->
  ReadString delim tail = None ->
  ReadString delim (input ++ tail) = None.
Proof.
  intros H Ht. induction input as [|c r IH]; [exact Ht|].
  rewrite append_cons. simpl in *. destruct (Ascii.eqb c delim); [discriminate|].
  destruct (ReadString delim r) as [[l rest']|]; [discriminate|].
  now rewrite IH.
Qed.

(** A line: bytes without a line feed, then the line feed. *)
Lemma ReadString_line w rest :
  ReadString newline w = None ->
  ReadString newline (w ++ String newline rest) =
    Some (w ++ String newline "", rest).
Proof.
  induction w as [|c r IH]; intros H.
  - reflexivity.
  - rewrite !append_cons. simpl in *.
    destruct (Ascii.eqb c newline); [discriminate|].
    destruct (ReadString newline r) as [[l rest']|]; [discriminate|].
    now rewrite IH.
Qed.

Lemma spaceless_no_newline w :
  spaceless w = true -> ReadString newline w = None.
Proof.
  induction w as [|c r IH]; intros H; [reflexivity|]. simpl in *.
  apply andb_true_iff in H as [Hc Hr].
  destruct (Ascii.eqb_spec c newline) as [->|_]; [discriminate Hc|].
  now rewrite (IH Hr).
Qed.

Lemma unwords_no_newline (ws : list string) :
  Forall token ws -> ReadString newline (unwords ws) = None.
Proof.
  induction 1 as [|w ws [_ Hw] Hws IH]; [reflexivity|].
  destruct ws as [|w' ws'].
  - now apply spaceless_no_newline.
  - change (unwords (w :: w' :: ws')) with (w ++ " " ++ unwords (w' :: ws')).
    apply ReadString_None_app; [now apply spaceless_no_newline|].
    now apply ReadString_None_app.
Qed.

Lemma ReadString_command_line (ws : list string) rest :
  Forall token ws ->
  ReadString newline (command_line ws ++ rest) = Some (command_line ws, rest).
Proof.
  intros Hws. unfold command_line.
  rewrite append_assoc, append_cons, append_empty_l.
  now apply ReadString_line, unwords_no_newline.
Qed.

Lemma Fields_command_line (ws : list string) :
  Forall token ws -> Fields (command_line ws) = ws.
Proof. intros Hws. now apply Fields_unwords. Qed.

End ReadFacts.

(** ** One turn of the handler *)

Section HandlerFacts.

Import strings.

(** A turn either skips a blank line or answers with what [Execute]
    returns for the first field in upper case and the other fields. *)
Lemma handleLine_cases (line : string) (now : time.Time) (s : Store) :
  (blank line = true /\ handleLine line now s = Skipped)
  \/ (blank line = false
      /\ exists verb args,
           Fields line = verb :: args
           /\ handleLine line now s =
                Replied (fst (Store_Execute (ToUpper verb) args now s))
                        (snd (Store_Execute (ToUpper verb) args now s))).
Proof.
  unfold handleLine.
  destruct (String.eqb_spec (TrimSpace line) "") as [He|Hne].
  - left. split; [now apply TrimSpace_empty_iff | reflexivity].
  - right.
    assert (Hb : blank line = false).
    { destruct (blank line) eqn:Hb; [|reflexivity].
      now apply TrimSpace_empty_iff in Hb. }
    split; [exact Hb|]. rewrite Fields_TrimSpace.
    destruct (Fields line) as [|verb args] eqn:HF.
    + apply fields_from_nil_iff in HF as [_ HF]. congruence.
    + exists verb, args. split; [reflexivity|].
      now destruct (Store_Execute (ToUpper verb) args now s).
Qed.

Lemma handleLine_command (verb : string) (args : list string)
    (now : time.Time) (s : Store) :
  Forall token (verb :: args) ->
  handleLine (command_line (verb :: args)) now s =
    Replied (fst (Store_Execute (ToUpper verb) args now s))
            (snd (Store_Execute (ToUpper verb) args now s)).
Proof.
  intros Hws.
  destruct (handleLine_cases (command_line (verb :: args)) now s)
    as [[Hb _]|(_ & verb' & args' & HF & Hh)].
  - pose proof (Fields_command_line _ Hws) as HF.
    assert (Hnil : Fields (command_line (verb :: args)) = [])
      by now apply fields_from_nil_iff.
    congruence.
  - rewrite (Fields_command_line _ Hws) in HF. now injection HF as <- <-.
Qed.

End HandlerFacts.

(** ** The loop of the handler *)

Section ServeFacts.

Import strings bufio.

(** Fuel beyond the length of the input is never used. *)
Lemma serve_fuel (n m : nat) (clock : nat -> time.Time) (i : nat)
    (input : string) (s : Store) :
  (String.length input <= n)%nat -> (String.length input <= m)%nat ->
  serve n clock i input s = serve m clock i input s.
Proof.
  revert m i input s.
  induction n as [|n IH]; intros m i input s Hn Hm.
  - destruct input; [|simpl in Hn; lia]. now destruct m.
  - destruct m as [|m].
    + destruct input; [reflexivity | simpl in Hm; lia].
    + simpl. destruct (ReadString newline input) as [[line rest]|] eqn:HR;
        [|reflexivity].
      apply ReadString_split in HR as [_ Hlen].
      destruct (handleLine line (clock i) s); [| |reflexivity].
      * apply IH; lia.
      * rewrite (IH m (S i) rest s') by lia. reflexivity.
Qed.

(** Bytes after the last line feed are never read as a command. *)
Lemma serve_tail (fuel : nat) (clock : nat -> time.Time) (i : nat)
    (input tail : string) (s : Store) :
  ReadString newline tail = None ->
  serve fuel clock i (input ++ tail) s = serve fuel clock i input s.
Proof.
  intros Htail. revert i input s.
  induction fuel as [|fuel IH]; intros i input s; [reflexivity|]. simpl.
  destruct (ReadString newline input) as [[line rest]|] eqn:HR.
  - rewrite (ReadString_Some_app _ _ _ _ tail HR).
    destruct (handleLine line (clock i) s); [| |reflexivity].
    + apply IH.
    + now rewrite IH.
  - now rewrite (ReadString_None_app _ _ _ HR Htail).
Qed.

(** A property of the store and a property of the responses that every
    command made of tokens maintains hold through a whole connection, and
    the handler does not panic. *)
Lemma serve_invariant (C : time.Time -> Prop) (P : Store -> Prop)
    (R : string -> Prop) :
  (forall verb args now s,
      C now -> P s -> Forall token (verb :: args) ->
      R (fst (Store_Execute (ToUpper verb) args now s))
      /\ P (snd (Store_Execute (ToUpper verb) args now s))) ->
  forall fuel clock i input s,
    (forall j, C (clock j)) -> P s ->
    Forall R (responses (serve fuel clock i input s))
    /\ P (store_after (serve fuel clock i input s))
    /\ panicked (serve fuel clock i input s) = false.
Proof.
  intros Hstep fuel clock.
  induction fuel as [|fuel IH]; intros i input s Hclock Hs; simpl.
  - repeat split; [constructor | assumption].
  - destruct (ReadString newline input) as [[line rest]|];
      [|repeat split; [constructor | assumption]].
    destruct (handleLine_cases line (clock i) s)
      as [[_ ->]|(_ & verb & args & HF & ->)].
    + now apply IH.
    + assert (Htok : Forall token (verb :: args))
        by (rewrite <- HF; apply Fields_tokens).
      destruct (Hstep verb args (clock i) s (Hclock i) Hs Htok) as [HR HP].
      destruct (IH (S i) rest _ Hclock HP) as (IHR & IHP & IHpanic).
      simpl. repeat split; [now constructor | assumption | assumption].
Qed.

(** A command line made of tokens is executed, and the loop goes on with
    what follows it. *)
Lemma serve_command (fuel : nat) (clock : nat -> time.Time) (i : nat)
    (verb : string) (args : list string) (rest : string) (s : Store) :
  Forall token (verb :: args) ->
  (String.length (command_line (verb :: args) ++ rest) <= fuel)%nat ->
  let answer := Store_Execute (ToUpper verb) args (clock i) s in
  let r := serve (String.length rest) clock (S i) rest (snd answer) in
  serve fuel clock i (command_line (verb :: args) ++ rest) s =
    mkServed (fst answer :: responses r) (store_after r) (panicked r).
Proof.
  intros Htok Hfuel answer r.
  destruct fuel as [|fuel].
  { rewrite length_app in Hfuel. unfold command_line in Hfuel.
    rewrite length_app in Hfuel. simpl in Hfuel. lia. }
  simpl. rewrite (ReadString_command_line _ rest Htok).
  rewrite (handleLine_command verb args (clock i) s Htok).
  fold answer.
  rewrite (serve_fuel fuel (String.length rest)); [reflexivity| |lia].
  rewrite length_app in Hfuel. unfold command_line in Hfuel.
  rewrite length_app in Hfuel. simpl in Hfuel. lia.
Qed.

End ServeFacts.

Lemma Get_response (s : Store) (k : string) (now : time.Time) :
  fst (Store_Get k now s) = "ERR data doesn't exist"
  \/ fst (Store_Get k now s) = "ERR data expired"
  \/ exists d, s !! k = Some d /\ fst (Store_Get k now s) = value d.
Proof.
  unfold Store_Get. destruct (s !! k) as [d|]; [|now left].
  destruct (Store_TTL k now s) as [r s'].
  destruct (String.eqb r "-1"); simpl; [now right; left|].
  right. right. now exists d.
Qed.

(** Commands whose arguments are tokens keep every value a token, and are
    never answered with the message for an empty value. *)
Lemma Execute_tokens (command : string) (args : list string)
    (now : time.Time) (s : Store) :
  values_are_tokens s -> Forall token args ->
  fst (Store_Execute command args now s) <> "ERR property doesn't exist in store"
  /\ values_are_tokens (snd (Store_Execute command args now s)).
Proof.
  intros Hs Hargs. split.
  - unfold Store_Execute.
    repeat match goal with
    | |- context [String.eqb command ?v] => destruct (String.eqb command v)
    | |- context [negb (?a =? ?b)%nat] => destruct (a =? b)%nat; simpl
    end; try discriminate.
    + destruct (Store_Set (arg args 0) (arg args 1) now s). discriminate.
    + pose proof (Get_response s (arg args 0) now) as Hget.
      destruct (Store_Get (arg args 0) now s) as [r s']. simpl in Hget.
      destruct Hget as [->|[->|(d & Hd & ->)]]; simpl; try discriminate.
      destruct (Hs _ _ Hd) as [Hne Hsp].
      destruct (String.eqb_spec (value d) ""); [contradiction|]. simpl.
      intros E. rewrite E in Hsp. discriminate Hsp.
    + destruct (Store_Exists (arg args 0) s); discriminate.
  - destruct (Execute_store command args now s) as [->|[->|(_ & Hlen & ->)]].
    + assumption.
    + intros k d Hd. apply lookup_delete_Some in Hd as [_ Hd]. eauto.
    + intros k d Hd. apply lookup_insert_Some in Hd as [[_ <-]|[_ Hd]]; [|eauto].
      simpl. destruct args as [|a [|b [|c args]]]; try discriminate Hlen.
      unfold arg. simpl. now inversion Hargs as [|? ? _ [|? ? Hb _]].
Qed.

(** ** Properties of the connection handler *)

(** X18. One turn of the handler, on an ASCII line: a line of space bytes
    only (the empty line included) is skipped without a response and
    without touching the store; any other line is answered, with a
    response of at least one byte; indexing [parts[0]] never panics. *)
Theorem handleLine_answers (line : string) (now : time.Time) (s : Store) :
  strings.isASCII line = true ->
  (blank line = true -> handleLine line now s = Skipped)
  /\ (blank line = false ->
        exists resp s', handleLine line now s = Replied resp s' /\ resp <> "").
Proof.
  intros _.
  destruct (handleLine_cases line now s)
    as [[Hb ->]|(Hb & verb & args & _ & ->)]; rewrite Hb.
  - split; [reflexivity | discriminate].
  - split; [discriminate|]. intros _. eexists _, _.
    split; [reflexivity | apply Execute_nonempty].
Qed.

Lemma handleLine_answers_witness :
  handleLine "   " 1000 ∅ = Skipped
  /\ exists resp s', handleLine " ping " 1000 ∅ = Replied resp s' /\ resp <> "".
Proof.
  split.
  - apply (proj1 (handleLine_answers "   " 1000 ∅ eq_refl)). reflexivity.
  - apply (proj2 (handleLine_answers " ping " 1000 ∅ eq_refl)). reflexivity.
Defined.

(** X19. The handler of a connection never panics and never writes an
    empty response, whatever ASCII bytes the peer sends. *)
Theorem handleConnection_never_panics (clock : nat -> time.Time)
    (input : string) (s : Store) :
  strings.isASCII input = true ->
  panicked (handleConnection clock input s) = false
  /\ Forall (fun resp => resp <> "") (responses (handleConnection clock input s)).
Proof.
  intros _. unfold handleConnection.
  destruct (serve_invariant (fun _ => True) (fun _ => True)
              (fun resp => resp <> "")
              ltac:(intros; split; [apply Execute_nonempty | exact I])
              (String.length input) clock 0%nat input s
              ltac:(intros; exact I) I) as (HR & _ & Hpanic).
  now split.
Qed.

Lemma handleConnection_never_panics_witness :
  let input := command_line ["get"] ++ command_line [] ++ command_line ["x"; "y"] in
  panicked (handleConnection (fun _ => 1000) input ∅) = false
  /\ Forall (fun resp => resp <> "")
       (responses (handleConnection (fun _ => 1000) input ∅)).
Proof.
  apply (handleConnection_never_panics (fun _ => 1000)). reflexivity.
Defined.

(** X20. On ASCII input, a command sent as its words (tokens of ASCII
    bytes), separated by one space and ended by a line feed, is parsed
    back into those words: the handler answers
    with what [Execute] returns for the first word in upper case and the
    other words as they are.  So the case of the verb does not matter,
    while keys and values are taken byte for byte. *)
Theorem handleLine_command_line (verb : string) (args : list string)
    (now : time.Time) (s : Store) :
  Forall token (verb :: args) ->
  strings.isASCII (command_line (verb :: args)) = true ->
  handleLine (command_line (verb :: args)) now s =
    Replied (fst (Store_Execute (strings.ToUpper verb) args now s))
            (snd (Store_Execute (strings.ToUpper verb) args now s))
  /\ handleLine (command_line (strings.ToUpper verb :: args)) now s =
       handleLine (command_line (verb :: args)) now s.
Proof.
  intros Htok _. inversion Htok as [|? ? Hverb Hargs]; subst.
  rewrite (handleLine_command verb args now s Htok).
  split; [reflexivity|].
  assert (Hup : Forall token (strings.ToUpper verb :: args))
    by (constructor; [now apply ToUpper_token | assumption]).
  rewrite (handleLine_command (strings.ToUpper verb) args now s Hup).
  now rewrite ToUpper_idempotent.
Qed.

Lemma handleLine_command_line_witness :
  handleLine (command_line ["exists"; "Name"]) 1000 ∅ =
    Replied (fst (Store_Execute (strings.ToUpper "exists") ["Name"] 1000 ∅))
            (snd (Store_Execute (strings.ToUpper "exists") ["Name"] 1000 ∅))
  /\ handleLine (command_line [strings.ToUpper "exists"; "Name"]) 1000 ∅ =
       handleLine (command_line ["exists"; "Name"]) 1000 ∅.
Proof.
  apply (handleLine_command_line "exists" ["Name"] 1000 ∅).
  - repeat constructor; discriminate.
  - reflexivity.
Defined.

(** X21. Over a connection no value is ever empty, so the dispatcher's
    message for an empty value is never sent: starting from a store whose
    values are tokens, whatever ASCII bytes the peer sends, no response is
    "ERR property doesn't exist in store", and the values of the store
    are still tokens when the handler returns. *)
Theorem connection_never_empty_value (clock : nat -> time.Time)
    (input : string) (s : Store) :
  strings.isASCII input = true ->
  values_are_tokens s ->
  Forall (fun resp => resp <> "ERR property doesn't exist in store")
    (responses (handleConnection clock input s))
  /\ values_are_tokens (store_after (handleConnection clock input s)).
Proof.
  intros _ Hs. unfold handleConnection.
  destruct (serve_invariant (fun _ => True) values_are_tokens
              (fun resp => resp <> "ERR property doesn't exist in store")
              ltac:(intros verb args now s0 _ Hs0 Htok;
                    apply Execute_tokens;
                    [exact Hs0 | now inversion Htok])
              (String.length input) clock 0%nat input s
              ltac:(intros; exact I) Hs) as (HR & HP & _).
  now split.
Qed.

Lemma connection_never_empty_value_witness :
  let input := command_line ["set"; "k"; "v"] ++ command_line ["get"; "k"] in
  Forall (fun resp => resp <> "ERR property doesn't exist in store")
    (responses (handleConnection (fun _ => 1000) input ∅))
  /\ values_are_tokens (store_after (handleConnection (fun _ => 1000) input ∅)).
Proof.
  apply (connection_never_empty_value (fun _ => 1000)).
  - reflexivity.
  - intros k d Hd. rewrite lookup_empty in Hd. discriminate Hd.
Defined.

(** X22. A command is executed only once its line feed has arrived: bytes
    that follow the last line feed of the input are dropped when the peer
    closes the connection. *)
Theorem unterminated_tail_dropped (clock : nat -> time.Time)
    (input tail : string) (s : Store) :
  strings.isASCII (input ++ tail) = true ->
  bufio.ReadString newline tail = None ->
  handleConnection clock (input ++ tail) s = handleConnection clock input s.
Proof.
  intros _ Htail. unfold handleConnection.
  rewrite (serve_tail _ clock 0 input tail s Htail).
  apply serve_fuel; [rewrite length_app|]; lia.
Qed.

Lemma unterminated_tail_dropped_witness :
  handleConnection (fun _ => 1000) (command_line ["set"; "k"; "v"] ++ "del k") ∅ =
    handleConnection (fun _ => 1000) (command_line ["set"; "k"; "v"]) ∅.
Proof.
  apply (unterminated_tail_dropped (fun _ => 1000)
           (command_line ["set"; "k"; "v"]) "del k" ∅).
  - reflexivity.
  - reflexivity.
Defined.

(** X23. A value written over the wire is read back over the wire, on
    ASCII input: for a key and a value that are tokens of ASCII bytes, and
    ASCII verbs that are SET and GET in any case, a connection that sends
    the SET line and then the GET line less than 5 seconds later is
    answered "OK" and then the value, and the store is left as [Set] left
    it. *)
Theorem SET_then_GET_over_the_wire (clock : nat -> time.Time)
    (set get k v : string) (s : Store) :
  Forall token [set; get; k; v] ->
  strings.ToUpper set = "SET" -> strings.ToUpper get = "GET" ->
  strings.isASCII (command_line [set; k; v] ++ command_line [get; k]) = true ->
  clock 1%nat - clock 0%nat < defaultTTL * time.Second ->
  handleConnection clock (command_line [set; k; v] ++ command_line [get; k]) s =
    mkServed ["OK"; v] (snd (Store_Set k v (clock 0%nat) s)) false.
Proof.
  intros Htok Hset Hget _ Hclock.
  inversion Htok as [|? ? Hs Htok1]; subst.
  inversion Htok1 as [|? ? Hg Htok2]; subst.
  inversion Htok2 as [|? ? Hk Htok3]; subst.
  inversion Htok3 as [|? ? Hv _]; subst.
  assert (Hline1 : Forall token [set; k; v])
    by (constructor; [|constructor; [|constructor; [|constructor]]]; assumption).
  assert (Hline2 : Forall token [get; k])
    by (constructor; [|constructor; [|constructor]]; assumption).
  unfold handleConnection.
  rewrite (serve_command _ clock 0 set [k; v] _ s Hline1) by lia.
  rewrite Hset, Execute_SET. simpl fst. simpl snd.
  rewrite <- (append_empty_r (command_line [get; k])).
  rewrite (serve_command _ clock 1 get [k] "" _ Hline2) by lia.
  rewrite Hget, Execute_GET, (Get_after_Set k v _ _ s Hclock). simpl.
  destruct (String.eqb_spec v "") as [->|_]; [now destruct Hv|].
  reflexivity.
Qed.

Lemma SET_then_GET_over_the_wire_witness :
  handleConnection (fun i => 1000 + Z.of_nat i)
    (command_line ["set"; "name"; "John"] ++ command_line ["Get"; "name"]) ∅ =
    mkServed ["OK"; "John"] (snd (Store_Set "name" "John" 1000 ∅)) false.
Proof.
  apply (SET_then_GET_over_the_wire (fun i => 1000 + Z.of_nat i)
           "set" "Get" "name" "John" ∅).
  - repeat constructor; discriminate.
  - reflexivity.
  - reflexivity.
  - reflexivity.
  - vm_compute. reflexivity.
Defined.

Lemma expiry_bounded_mono (s : Store) (b b' : time.Time) :
  b <= b' -> expiry_bounded b s -> expiry_bounded b' s.
Proof.
  intros Hle Hs k d Hd. destruct (Hs k d Hd). split; [assumption | lia].
Qed.

(** X24. What a connection leaves behind does not stay: if every clock
    reading during the connection lies between the zero Time and [last],
    and every entry of the store at its start had an expiry, none later
    than [bound], then a janitor pass later than both [bound] and 5
    seconds after [last] leaves the store empty. *)
Theorem connection_then_cleanup (clock : nat -> time.Time) (input : string)
    (s : Store) (bound last now : time.Time) :
  strings.isASCII input = true ->
  (forall j, time.zero <= clock j <= last) ->
  expiry_bounded bound s ->
  bound < now -> last + defaultTTL * time.Second < now ->
  Store_cleanup now (store_after (handleConnection clock input s)) = ∅.
Proof.
  intros _ Hclock Hs Hbound Hlast. unfold handleConnection.
  set (top := Z.max bound (last + defaultTTL * time.Second)).
  destruct (serve_invariant (fun t => time.zero <= t <= last)
              (expiry_bounded top) (fun _ => True)
              ltac:(intros verb args t s0 [Ht0 Ht1] Hs0 _; split; [exact I|];
                    apply (expiry_bounded_mono _ (Z.max top (t + defaultTTL * time.Second)));
                    [unfold top; lia | now apply Execute_expiry])
              (String.length input) clock 0%nat input s Hclock
              (expiry_bounded_mono s bound top ltac:(unfold top; lia) Hs))
    as (_ & HP & _).
  apply (cleanup_bounded_empty _ top); [exact HP | unfold top; lia].
Qed.

Lemma connection_then_cleanup_witness :
  Store_cleanup 6000000000
    (store_after (handleConnection (fun _ => 1000)
                    (command_line ["set"; "k"; "v"]) ∅)) = ∅.
Proof.
  apply (connection_then_cleanup (fun _ => 1000) _ ∅ 0 1000 6000000000).
  - reflexivity.
  - intros j. vm_compute. split; discriminate.
  - intros k d Hd. rewrite lookup_empty in Hd. discriminate Hd.
  - reflexivity.
  - vm_compute. reflexivity.
Defined.
